(** * DeleteEdgesProcessor: edge deletion with secondary-index maintenance

    A shallow embedding of [src/storage/mutate/DeleteEdgesProcessor.cpp]
    (methods [DeleteEdgesProcessor::process] and
    [DeleteEdgesProcessor::deleteEdges]) and the properties of its
    natural-language specification.

    Layout of the development:
    - basic identifiers, error codes, requests, batch operations;
    - the collaborators the two methods call (key codec, schema/index
      managers, key-value store, index state), as records of functions;
    - [deleteEdges] : the index-aware per-partition batch builder, and
      [deleteEdgesObs], the same builder with the state of the indexes as
      it is read, query by query;
    - [process]     : the orchestrator, as explicit state passing over the
      processor's reply state, the in-memory edge lock and the store's
      in-flight submissions, together with a step relation in which
      completions of submissions interleave with dispatching;
    - a sample instantiation of the collaborators on which the model runs;
    - the properties. *)

From Stdlib Require Import List String Ascii ZArith Bool Lia Permutation DecimalString.
Import ListNotations.
Local Open Scope Z_scope.
Local Open Scope list_scope.

Set Implicit Arguments.

(** ** Identifiers and wire types *)

Definition GraphSpaceID := Z.
Definition PartitionID := Z.
Definition EdgeType := Z.
Definition EdgeRanking := Z.
Definition IndexID := Z.
Definition VertexID := string.
Definition Key := string.
Definition Val := string.

(** [nebula::cpp2::ErrorCode]. The enumeration itself is declared outside
    this source file; the constructors below are the codes the file names,
    and [E_STORE n] stands for every other code (those the key-value store
    reports from a scan or a submission). *)
Inductive ErrorCode : Type :=
| SUCCEEDED
| E_INVALID_SPACEVIDLEN
| E_SPACE_NOT_FOUND
| E_INVALID_VID
| E_INVALID_DATA
| E_DATA_CONFLICT_ERROR
| E_STORE (n : Z).

Definition ErrorCode_eq_dec (a b : ErrorCode) : {a = b} + {a <> b}.
Proof. decide equality. apply Z.eq_dec. Defined.

Definition ErrorCode_eqb (a b : ErrorCode) : bool :=
  if ErrorCode_eq_dec a b then true else false.

(** [cpp2::EdgeKey]: the identity of an edge inside a partition. *)
Record EdgeKey : Type := mkEdgeKey {
  src : VertexID;
  edge_type : EdgeType;
  ranking : EdgeRanking;
  dst : VertexID
}.

(** [cpp2::DeleteEdgesRequest].  [parts] is a map from partition to edges;
    it is kept as an association list in iteration order, and the
    well-formedness of the map is [NoDup (map fst parts)]. *)
Record DeleteEdgesRequest : Type := mkRequest {
  space_id : GraphSpaceID;
  parts : list (PartitionID * list EdgeKey)
}.

(** [ErrorOr<E, A>]: left is the error, right is the value. *)
Definition ErrorOr (E A : Type) : Type := sum E A.

Definition ok {E A} (r : ErrorOr E A) : bool :=
  match r with inl _ => false | inr _ => true end.

Definition bindE {E A B} (r : ErrorOr E A) (k : A -> ErrorOr E B) : ErrorOr E B :=
  match r with
  | inl e => inl e
  | inr a => k a
  end.

Notation "x <-! r ;; k" := (bindE r (fun x => k))
  (at level 61, r at next level, right associativity).
Notation "' pat <-! r ;; k" := (bindE r (fun x => match x with pat => k end))
  (at level 61, pat pattern, r at next level, right associativity).

(** ** Batch holder

    [kvstore::BatchHolder]: an append-only sequence of operations. *)
Inductive BatchOp : Type :=
| OP_BATCH_PUT (k : Key) (v : Val)
| OP_BATCH_REMOVE (k : Key).

Definition BatchHolder := list BatchOp.

Definition bh_put (b : BatchHolder) (k : Key) (v : Val) : BatchHolder :=
  b ++ [OP_BATCH_PUT k v].

Definition bh_remove (b : BatchHolder) (k : Key) : BatchHolder :=
  b ++ [OP_BATCH_REMOVE k].

Definition getBatch (b : BatchHolder) : list BatchOp := b.

(** [kvstore::KVIterator] over the result of a prefix scan: the entries not
    yet consumed; [valid] is non-emptiness, [key]/[val] read the head and
    [next] drops it. *)
Definition KVIterator := list (Key * Val).

(** The key of the in-memory edge lock ([EMLI]). *)
Definition EMLI : Type :=
  (GraphSpaceID * PartitionID * VertexID * EdgeType * EdgeRanking * VertexID)%type.

Definition EMLI_eq_dec (a b : EMLI) : {a = b} + {a <> b}.
Proof. repeat decide equality. Defined.

(** ** Processor state

    The state the orchestrator reads and writes: the reply being assembled,
    the counter of outstanding partitions, the in-memory edge lock shared
    with other requests, and the submissions handed to the store whose
    completion callback has not run yet. *)

Inductive Submission : Type :=
| AsyncMultiRemove (keys : list Key)
| AsyncAppendBatch (batch : string).

(** A submission in flight: its callback captures the partition and, on the
    index-aware path, the lock guard. *)
Record Pending : Type := mkPending {
  cb_part : PartitionID;
  cb_submission : Submission;
  cb_guard : list EMLI
}.

Record Processor : Type := mkProcessor {
  codes_ : list (PartitionID * ErrorCode);
  callingNum_ : Z;
  finished_ : nat;
  edgesML_ : list EMLI;
  inflight_ : list Pending
}.

Definition newProcessor (held : list EMLI) : Processor :=
  mkProcessor [] 0 0 held [].

Definition set_callingNum (n : Z) (st : Processor) : Processor :=
  mkProcessor (codes_ st) n (finished_ st) (edgesML_ st) (inflight_ st).

Definition set_edgesML (held : list EMLI) (st : Processor) : Processor :=
  mkProcessor (codes_ st) (callingNum_ st) (finished_ st) held (inflight_ st).

Definition set_inflight (l : list Pending) (st : Processor) : Processor :=
  mkProcessor (codes_ st) (callingNum_ st) (finished_ st) (edgesML_ st) l.

(** Modelled from the spec: [BaseProcessor::pushResultCode] is defined
    outside this source file. The response holds one result code per
    partition (section 6 of the specification); pushing a code appends it. *)
Definition pushResultCode (code : ErrorCode) (partId : PartitionID) (st : Processor)
    : Processor :=
  mkProcessor (codes_ st ++ [(partId, code)]) (callingNum_ st) (finished_ st)
              (edgesML_ st) (inflight_ st).

(** Modelled from the spec: [BaseProcessor::onFinished] is defined outside
    this source file. It completes the request; the model counts the calls. *)
Definition onFinished (st : Processor) : Processor :=
  mkProcessor (codes_ st) (callingNum_ st) (S (finished_ st)) (edgesML_ st) (inflight_ st).

(** Modelled from the spec: [BaseProcessor::handleAsync] is defined outside
    this source file. Each call reports the outcome of one partition; the
    request is finished when as many outcomes were reported as [callingNum_]
    was set to (section 4.5, Completed). *)
Definition handleAsync (spaceId : GraphSpaceID) (partId : PartitionID) (code : ErrorCode)
    (st : Processor) : Processor :=
  let st1 := pushResultCode code partId st in
  let st2 := set_callingNum (callingNum_ st1 - 1) st1 in
  if callingNum_ st2 =? 0 then onFinished st2 else st2.

(** Modelled from the spec: [BaseProcessor::doRemove] is defined outside
    this source file. It submits a remove-only batch to the store and takes
    no lock (section 4.5, no-index fast path); the completion callback is
    [handleAsync]. *)
Definition doRemove (spaceId : GraphSpaceID) (partId : PartitionID) (keys : list Key)
    (st : Processor) : Processor :=
  set_inflight (inflight_ st ++ [mkPending partId (AsyncMultiRemove keys) []]) st.

(** [kvstore_->asyncAppendBatch] with the callback of lines 117-122, which
    owns the lock guard. *)
Definition asyncAppendBatch (spaceId : GraphSpaceID) (partId : PartitionID)
    (batch : string) (guard : list EMLI) (st : Processor) : Processor :=
  set_inflight (inflight_ st ++ [mkPending partId (AsyncAppendBatch batch) guard]) st.

Definition lockedIn (held : list EMLI) (k : EMLI) : bool :=
  if in_dec EMLI_eq_dec k held then true else false.

(** Modelled from the spec: [nebula::MemoryLockGuard] is defined outside
    this source file. Acquisition is all-or-nothing (section 4.4): it fails
    when one of the keys is already held and then holds nothing; otherwise
    every key is held until the guard is released. *)
Definition MemoryLockGuard (held : list EMLI) (keys : list EMLI) : option (list EMLI) :=
  match find (lockedIn held) keys with
  | Some conflict => None
  | None => Some (nodup EMLI_eq_dec keys ++ held)
  end.

Definition releaseGuard (held : list EMLI) (guard : list EMLI) : list EMLI :=
  filter (fun k => negb (lockedIn guard k)) held.

(** The completion callback of a submission (lines 117-122, and the one
    [doRemove] installs): report the store's code, then drop the guard. *)
Definition complete (spaceId : GraphSpaceID) (cb : Pending) (code : ErrorCode)
    (st : Processor) : Processor :=
  let st1 := handleAsync spaceId (cb_part cb) code st in
  set_edgesML (releaseGuard (edgesML_ st1) (cb_guard cb)) st1.


(** ** Collaborators *)

Section Collaborators.

Variables RowReader IndexValues ColumnDef IndexState : Type.

(** [meta::cpp2::IndexItem], the fields the processor reads. *)
Record IndexItem : Type := mkIndexItem {
  index_id : IndexID;
  schema_edge_type : EdgeType;
  index_name : string;
  fields : list ColumnDef
}.

(** The key codec ([NebulaKeyUtils], [IndexKeyUtils], [OperationKeyUtils])
    and the batch encoder ([encodeBatchValue]); declared outside this source
    file and taken as parameters. *)
Record KeyUtils : Type := mkKeyUtils {
  isValidVidLen : Z -> VertexID -> VertexID -> bool;
  edgeKey : Z -> PartitionID -> VertexID -> EdgeType -> EdgeRanking -> VertexID -> Key;
  edgePrefix : Z -> PartitionID -> VertexID -> EdgeType -> EdgeRanking -> VertexID -> Key;
  isLock : Z -> Key -> bool;
  isEdge : Z -> Key -> bool;
  collectIndexValues : RowReader -> list ColumnDef -> option IndexValues;
  edgeIndexKey : Z -> PartitionID -> IndexID -> VertexID -> EdgeRanking -> VertexID ->
                 IndexValues -> Key;
  deleteOperationKey : PartitionID -> Key;
  encodeBatchValue : list BatchOp -> string
}.

(** [StorageEnv]: schema manager, index manager, key-value store (read
    side) and index state. *)
Record StorageEnv : Type := mkStorageEnv {
  getSpaceVidLen : GraphSpaceID -> option Z;
  getEdgeIndexes : GraphSpaceID -> option (list IndexItem);
  kv_prefix : GraphSpaceID -> PartitionID -> Key -> ErrorCode * KVIterator;
  getEdgePropReader : GraphSpaceID -> EdgeType -> Val -> option RowReader;
  getIndexState : GraphSpaceID -> PartitionID -> IndexState;
  checkRebuilding : IndexState -> bool;
  checkIndexLocked : IndexState -> bool
}.

Variable ku : KeyUtils.
Variable env_ : StorageEnv.

(** ** [DeleteEdgesProcessor::deleteEdges] *)

Section DeleteEdges.

Variable spaceId_ : GraphSpaceID.
Variable spaceVidLen_ : Z.
Variable indexes_ : list IndexItem.

(** Lines 145-148: remove every leading lock key. *)
Fixpoint removeLocks (iter : KVIterator) (b : BatchHolder) : KVIterator * BatchHolder :=
  match iter with
  | (k, v) :: rest =>
      if isLock ku spaceVidLen_ k then removeLocks rest (bh_remove b k)
      else (iter, b)
  | [] => (iter, b)
  end.

(** Lines 198-201: remove whatever the iterator still yields. *)
Fixpoint removeRest (iter : KVIterator) (b : BatchHolder) : BatchHolder :=
  match iter with
  | (k, v) :: rest => removeRest rest (bh_remove b k)
  | [] => b
  end.

(** Lines 155-192: the loop over [indexes_] for one edge record.  [reader]
    is the lazily created row reader ([None] is [nullptr]). *)
Fixpoint indexLoop (partId : PartitionID) (type : EdgeType) (srcId : VertexID)
    (rank : EdgeRanking) (dstId : VertexID) (val : Val)
    (reader : option RowReader) (idxs : list IndexItem) (b : BatchHolder)
    : ErrorOr ErrorCode BatchHolder :=
  match idxs with
  | [] => inr b
  | index :: rest =>
      if type =? schema_edge_type index then
        let indexId := index_id index in
        let reader' :=
          match reader with
          | None => getEdgePropReader env_ spaceId_ type val
          | Some r => Some r
          end in
        match reader' with
        | None => inl E_INVALID_DATA
        | Some r =>
            match collectIndexValues ku r (fields index) with
            | None => indexLoop partId type srcId rank dstId val (Some r) rest b
            | Some values =>
                let indexKey :=
                  edgeIndexKey ku spaceVidLen_ partId indexId srcId rank dstId values in
                let indexState := getIndexState env_ spaceId_ partId in
                if checkRebuilding env_ indexState then
                  let deleteOpKey := deleteOperationKey ku partId in
                  indexLoop partId type srcId rank dstId val (Some r) rest
                            (bh_put b deleteOpKey indexKey)
                else if checkIndexLocked env_ indexState then
                  inl E_DATA_CONFLICT_ERROR
                else
                  indexLoop partId type srcId rank dstId val (Some r) rest
                            (bh_remove b indexKey)
            end
        end
      else indexLoop partId type srcId rank dstId val reader rest b
  end.

(** Lines 150-196: the current edge record, if the iterator stands on one. *)
Definition removeRecord (partId : PartitionID) (edge : EdgeKey)
    (iter : KVIterator) (b : BatchHolder) : ErrorOr ErrorCode (KVIterator * BatchHolder) :=
  match iter with
  | (k, v) :: rest =>
      if isEdge ku spaceVidLen_ k then
        b' <-! indexLoop partId (edge_type edge) (src edge) (ranking edge) (dst edge)
                         v None indexes_ b ;;
        inr (rest, bh_remove b' k)
      else inr (iter, b)
  | [] => inr (iter, b)
  end.

(** Lines 132-201: the body of the loop over the partition's edges. *)
Definition deleteEdge (partId : PartitionID) (edge : EdgeKey) (b : BatchHolder)
    : ErrorOr ErrorCode BatchHolder :=
  let type := edge_type edge in
  let srcId := src edge in
  let rank := ranking edge in
  let dstId := dst edge in
  let prefix := edgePrefix ku spaceVidLen_ partId srcId type rank dstId in
  let '(ret, iter) := kv_prefix env_ spaceId_ partId prefix in
  if ErrorCode_eqb ret SUCCEEDED then
    let '(iter1, b1) := removeLocks iter b in
    '(iter2, b2) <-! removeRecord partId edge iter1 b1 ;;
    inr (removeRest iter2 b2)
  else inl ret.

(** Lines 131-202: the loop over the edges, threading the batch holder. *)
Fixpoint deleteEdgesLoop (partId : PartitionID) (edges : list EdgeKey) (b : BatchHolder)
    : ErrorOr ErrorCode BatchHolder :=
  match edges with
  | [] => inr b
  | edge :: rest =>
      b' <-! deleteEdge partId edge b ;;
      deleteEdgesLoop partId rest b'
  end.

(** Lines 128-205. *)
Definition deleteEdges (partId : PartitionID) (edges : list EdgeKey)
    : ErrorOr ErrorCode string :=
  b <-! deleteEdgesLoop partId edges [] ;;
  inr (encodeBatchValue ku (getBatch b)).

(** *** The construction with the index state as it is read

    Line 181 reads the state of the partition's indexes from [env_] each
    time an index entry is reached.  The state belongs to the rebuild
    machinery and may change between two reads.  [observed n] is what the
    [n]-th read of one construction returns, and the functions below
    thread the number of reads made so far; apart from that they are the
    functions above.  [deleteEdges] is the construction during which the
    state does not change. *)

Section Observed.

Variable observed : nat -> IndexState.

(** Lines 155-192, with the reads counted. *)
Fixpoint indexLoopObs (partId : PartitionID) (type : EdgeType) (srcId : VertexID)
    (rank : EdgeRanking) (dstId : VertexID) (val : Val)
    (reader : option RowReader) (idxs : list IndexItem) (q : nat) (b : BatchHolder)
    : ErrorOr ErrorCode (nat * BatchHolder) :=
  match idxs with
  | [] => inr (q, b)
  | index :: rest =>
      if type =? schema_edge_type index then
        let indexId := index_id index in
        let reader' :=
          match reader with
          | None => getEdgePropReader env_ spaceId_ type val
          | Some r => Some r
          end in
        match reader' with
        | None => inl E_INVALID_DATA
        | Some r =>
            match collectIndexValues ku r (fields index) with
            | None => indexLoopObs partId type srcId rank dstId val (Some r) rest q b
            | Some values =>
                let indexKey :=
                  edgeIndexKey ku spaceVidLen_ partId indexId srcId rank dstId values in
                let indexState := observed q in
                if checkRebuilding env_ indexState then
                  let deleteOpKey := deleteOperationKey ku partId in
                  indexLoopObs partId type srcId rank dstId val (Some r) rest (S q)
                               (bh_put b deleteOpKey indexKey)
                else if checkIndexLocked env_ indexState then
                  inl E_DATA_CONFLICT_ERROR
                else
                  indexLoopObs partId type srcId rank dstId val (Some r) rest (S q)
                               (bh_remove b indexKey)
            end
        end
      else indexLoopObs partId type srcId rank dstId val reader rest q b
  end.

(** Lines 150-196. *)
Definition removeRecordObs (partId : PartitionID) (edge : EdgeKey)
    (iter : KVIterator) (q : nat) (b : BatchHolder)
    : ErrorOr ErrorCode (KVIterator * nat * BatchHolder) :=
  match iter with
  | (k, v) :: rest =>
      if isEdge ku spaceVidLen_ k then
        '(q', b') <-! indexLoopObs partId (edge_type edge) (src edge) (ranking edge)
                                   (dst edge) v None indexes_ q b ;;
        inr (rest, q', bh_remove b' k)
      else inr (iter, q, b)
  | [] => inr (iter, q, b)
  end.

(** Lines 132-201. *)
Definition deleteEdgeObs (partId : PartitionID) (edge : EdgeKey) (q : nat) (b : BatchHolder)
    : ErrorOr ErrorCode (nat * BatchHolder) :=
  let type := edge_type edge in
  let srcId := src edge in
  let rank := ranking edge in
  let dstId := dst edge in
  let prefix := edgePrefix ku spaceVidLen_ partId srcId type rank dstId in
  let '(ret, iter) := kv_prefix env_ spaceId_ partId prefix in
  if ErrorCode_eqb ret SUCCEEDED then
    let '(iter1, b1) := removeLocks iter b in
    '(iter2, q2, b2) <-! removeRecordObs partId edge iter1 q b1 ;;
    inr (q2, removeRest iter2 b2)
  else inl ret.

(** Lines 131-202. *)
Fixpoint deleteEdgesLoopObs (partId : PartitionID) (edges : list EdgeKey) (q : nat)
    (b : BatchHolder) : ErrorOr ErrorCode (nat * BatchHolder) :=
  match edges with
  | [] => inr (q, b)
  | edge :: rest =>
      '(q', b') <-! deleteEdgeObs partId edge q b ;;
      deleteEdgesLoopObs partId rest q' b'
  end.

(** Lines 128-205. *)
Definition deleteEdgesObs (partId : PartitionID) (edges : list EdgeKey)
    : ErrorOr ErrorCode string :=
  '(q, b) <-! deleteEdgesLoopObs partId edges 0%nat [] ;;
  inr (encodeBatchValue ku (getBatch b)).

End Observed.

End DeleteEdges.

(** ** [DeleteEdgesProcessor::process] *)

(** Lines 55-75: encode the keys of one partition, stopping at the first
    edge whose vertex ids fail the length check. *)
Fixpoint collectKeys (spaceVidLen : Z) (partId : PartitionID) (edges : list EdgeKey)
    (keys : list Key) : ErrorCode * list Key :=
  match edges with
  | [] => (SUCCEEDED, keys)
  | ek :: rest =>
      if negb (isValidVidLen ku spaceVidLen (src ek) (dst ek)) then (E_INVALID_VID, keys)
      else
        let edge := edgeKey ku spaceVidLen partId (src ek) (edge_type ek) (ranking ek)
                            (dst ek) in
        collectKeys spaceVidLen partId rest (keys ++ [edge])
  end.

(** Lines 50-81: one partition on the path without indexes. *)
Definition noIndexPart (spaceId : GraphSpaceID) (spaceVidLen : Z)
    (part : PartitionID * list EdgeKey) (st : Processor) : Processor :=
  let partId := fst part in
  let '(code, keys) := collectKeys spaceVidLen partId (snd part) [] in
  if negb (ErrorCode_eqb code SUCCEEDED) then handleAsync spaceId partId code st
  else doRemove spaceId partId keys st.

(** Lines 83-123: one partition on the index-aware path.  The
    [IndexCountWrapper] of line 84 only counts requests in flight and is
    left out; the [DCHECK] of line 102 is a debug-build assertion with no
    effect on the control flow, it is [DCHECK_batch_not_empty]. *)
Definition indexPart (spaceId : GraphSpaceID) (spaceVidLen : Z) (indexes : list IndexItem)
    (part : PartitionID * list EdgeKey) (st : Processor) : Processor :=
  let partId := fst part in
  let dummyLock : list EMLI :=
    map (fun ek => (spaceId, partId, src ek, edge_type ek, ranking ek, dst ek)) (snd part) in
  match deleteEdges spaceId spaceVidLen indexes partId (snd part) with
  | inl e => handleAsync spaceId partId e st
  | inr batch =>
      match MemoryLockGuard (edgesML_ st) dummyLock with
      | None => handleAsync spaceId partId E_DATA_CONFLICT_ERROR st
      | Some held =>
          asyncAppendBatch spaceId partId batch (nodup EMLI_eq_dec dummyLock)
                           (set_edgesML held st)
      end
  end.

(** Lines 18-125. *)
Definition process (req : DeleteEdgesRequest) (st : Processor) : Processor :=
  let spaceId := space_id req in
  let partEdges := parts req in
  match getSpaceVidLen env_ spaceId with
  | None =>
      onFinished
        (fold_left (fun s part => pushResultCode E_INVALID_SPACEVIDLEN (fst part) s)
                   partEdges st)
  | Some spaceVidLen =>
      let st := set_callingNum (Z.of_nat (List.length partEdges)) st in
      match getEdgeIndexes env_ spaceId with
      | None =>
          onFinished
            (fold_left (fun s part => pushResultCode E_SPACE_NOT_FOUND (fst part) s)
                       partEdges st)
      | Some indexes =>
          match indexes with
          | [] => fold_left (fun s part => noIndexPart spaceId spaceVidLen part s) partEdges st
          | _ :: _ =>
              fold_left (fun s part => indexPart spaceId spaceVidLen indexes part s)
                        partEdges st
          end
      end
  end.

(** ** Interleaving with the store

    [process] runs the dispatch loop in one go.  The store may call a
    completion callback at any moment after the submission, and other
    requests take and release edge locks meanwhile; the step relation
    below lets both interleave with the dispatch loop.  A configuration is
    the list of partitions not dispatched yet and the processor state. *)

Definition dispatchPart (spaceId : GraphSpaceID) (spaceVidLen : Z) (indexes : list IndexItem)
    (part : PartitionID * list EdgeKey) (st : Processor) : Processor :=
  match indexes with
  | [] => noIndexPart spaceId spaceVidLen part st
  | _ :: _ => indexPart spaceId spaceVidLen indexes part st
  end.

Definition Config : Type := (list (PartitionID * list EdgeKey) * Processor)%type.

Inductive step (spaceId : GraphSpaceID) (spaceVidLen : Z) (indexes : list IndexItem)
    : Config -> Config -> Prop :=
| step_dispatch : forall part todo st,
    step spaceId spaceVidLen indexes
         (part :: todo, st) (todo, dispatchPart spaceId spaceVidLen indexes part st)
| step_complete : forall todo st l1 cb l2 code,
    inflight_ st = l1 ++ cb :: l2 ->
    step spaceId spaceVidLen indexes
         (todo, st) (todo, complete spaceId cb code (set_inflight (l1 ++ l2) st))
| step_other_request : forall todo st held,
    step spaceId spaceVidLen indexes (todo, st) (todo, set_edgesML held st).

Inductive steps (spaceId : GraphSpaceID) (spaceVidLen : Z) (indexes : list IndexItem)
    : Config -> Config -> Prop :=
| steps_refl : forall c, steps spaceId spaceVidLen indexes c c
| steps_cons : forall c1 c2 c3,
    steps spaceId spaceVidLen indexes c1 c2 ->
    step spaceId spaceVidLen indexes c2 c3 ->
    steps spaceId spaceVidLen indexes c1 c3.

(** The configurations a request can be in.  When the configuration lookup
    fails, [process] answers at once; otherwise [callingNum_] is set and the
    partitions are dispatched while completions arrive. *)
Definition reachable (req : DeleteEdgesRequest) (held : list EMLI) (c : Config) : Prop :=
  let st0 := newProcessor held in
  match getSpaceVidLen env_ (space_id req) with
  | None => c = ([], process req st0)
  | Some spaceVidLen =>
      match getEdgeIndexes env_ (space_id req) with
      | None => c = ([], process req st0)
      | Some indexes =>
          steps (space_id req) spaceVidLen indexes
                (parts req, set_callingNum (Z.of_nat (List.length (parts req))) st0) c
      end
  end.

(** A configuration in which nothing is left to dispatch or to complete. *)
Definition quiescent (c : Config) : Prop :=
  fst c = [] /\ inflight_ (snd c) = [].

(** [c'] continues [c]: further steps of the same request. *)
Definition continues (req : DeleteEdgesRequest) (c c' : Config) : Prop :=
  match getSpaceVidLen env_ (space_id req) with
  | None => c' = c
  | Some spaceVidLen =>
      match getEdgeIndexes env_ (space_id req) with
      | None => c' = c
      | Some indexes => steps (space_id req) spaceVidLen indexes c c'
      end
  end.

End Collaborators.

(** ** Notions used to state the properties *)

Fixpoint takeWhile {A : Type} (p : A -> bool) (l : list A) : list A :=
  match l with
  | x :: r => if p x then x :: takeWhile p r else []
  | [] => []
  end.

Fixpoint dropWhile {A : Type} (p : A -> bool) (l : list A) : list A :=
  match l with
  | x :: r => if p x then dropWhile p r else l
  | [] => []
  end.

(** The removal of a scanned entry. *)
Definition removeOf (kv : Key * Val) : BatchOp := OP_BATCH_REMOVE (fst kv).

Definition isPut (op : BatchOp) : bool :=
  match op with OP_BATCH_PUT _ _ => true | OP_BATCH_REMOVE _ => false end.

Definition isRemove (op : BatchOp) : bool :=
  match op with OP_BATCH_PUT _ _ => false | OP_BATCH_REMOVE _ => true end.

(** The order of one edge's operations as the specification words it
    (section 4.3, steps 3-5): removals of the leading locks, then, when the
    next key is an edge record, the per-index operations and the removal of
    the record, then removals of everything that is left. *)
Definition orderedEdgeOps (lock edgeRecord : Key -> bool) (iter : KVIterator)
    (indexOps : list BatchOp) : list BatchOp :=
  map removeOf (takeWhile (fun kv => lock (fst kv)) iter) ++
  match dropWhile (fun kv => lock (fst kv)) iter with
  | (k, v) :: rest =>
      if edgeRecord k then indexOps ++ OP_BATCH_REMOVE k :: map removeOf rest
      else map removeOf ((k, v) :: rest)
  | [] => []
  end.

(** The index keys of one edge record: for every index of the record's edge
    type whose field values can be extracted, the key of its entry, in the
    order of the indexes. *)
Definition indexKeys {RowReader IndexValues ColumnDef : Type}
    (ku : KeyUtils RowReader IndexValues ColumnDef) (vidLen : Z) (partId : PartitionID)
    (edge : EdgeKey) (r : RowReader) (idxs : list (IndexItem ColumnDef)) : list Key :=
  flat_map
    (fun index =>
       if edge_type edge =? schema_edge_type index then
         match collectIndexValues ku r (fields index) with
         | Some values =>
             [edgeIndexKey ku vidLen partId (index_id index) (src edge) (ranking edge)
                           (dst edge) values]
         | None => []
         end
       else [])
    idxs.

(** Every partition of the request is in exactly one place: waiting to be
    dispatched, in flight at the store, or reported. *)
Definition accounted (names : list PartitionID) (c : Config) : Prop :=
  Permutation names
    (map fst (fst c) ++ map cb_part (inflight_ (snd c)) ++ map fst (codes_ (snd c))).

(** [callingNum_] counts the partitions that have not reported, and the
    request is finished exactly when it has reached zero. *)
Definition counting (c : Config) : Prop :=
  callingNum_ (snd c) = Z.of_nat (List.length (fst c) + List.length (inflight_ (snd c))) /\
  finished_ (snd c) = if callingNum_ (snd c) =? 0 then 1%nat else 0%nat.

(** The three-way branch of lines 181-190 on the state of the partition's
    indexes: rebuilding is tested first, then locked. *)
Inductive IndexLifecycleState : Type := Normal | Rebuilding | Locked.

Definition lifecycle {RowReader ColumnDef IndexState : Type}
    (env_ : StorageEnv RowReader ColumnDef IndexState) (s : IndexState)
    : IndexLifecycleState :=
  if checkRebuilding env_ s then Rebuilding
  else if checkIndexLocked env_ s then Locked
  else Normal.

(** What the code does with the index entries of one edge record, entry by
    entry: the branch of an entry is decided by the state read when the
    entry is reached, [observed q] for the [q]-th read; it is a deferred
    deletion when the state is rebuilding, a direct removal when it is
    normal, and the end of the construction when it is locked.  The index
    enters only through the key of its entry. *)
Fixpoint branchEntries {RowReader IndexValues ColumnDef IndexState : Type}
    (ku : KeyUtils RowReader IndexValues ColumnDef)
    (env_ : StorageEnv RowReader ColumnDef IndexState)
    (observed : nat -> IndexState) (partId : PartitionID)
    (keys : list Key) (q : nat) (b : BatchHolder) : ErrorOr ErrorCode (nat * BatchHolder) :=
  match keys with
  | [] => inr (q, b)
  | key :: rest =>
      match lifecycle env_ (observed q) with
      | Rebuilding =>
          branchEntries ku env_ observed partId rest (S q)
                        (b ++ [OP_BATCH_PUT (deleteOperationKey ku partId) key])
      | Locked => inl E_DATA_CONFLICT_ERROR
      | Normal =>
          branchEntries ku env_ observed partId rest (S q) (b ++ [OP_BATCH_REMOVE key])
      end
  end.

(** The index entries of the record an edge's scan stands on after the
    leading locks: none when there is no such record or its value does
    not decode. *)
Definition recordIndexKeys {RowReader IndexValues ColumnDef IndexState : Type}
    (ku : KeyUtils RowReader IndexValues ColumnDef)
    (env_ : StorageEnv RowReader ColumnDef IndexState)
    (spaceId : GraphSpaceID) (vidLen : Z) (indexes : list (IndexItem ColumnDef))
    (partId : PartitionID) (edge : EdgeKey) (iter : KVIterator) : list Key :=
  match dropWhile (fun kv => isLock ku vidLen (fst kv)) iter with
  | (k, v) :: _ =>
      if isEdge ku vidLen k then
        match getEdgePropReader env_ spaceId (edge_type edge) v with
        | Some r => indexKeys ku vidLen partId edge r indexes
        | None => []
        end
      else []
  | [] => []
  end.

(** Forgetting the number of reads of a construction. *)
Definition dropReads {E B : Type} (r : ErrorOr E (nat * B)) : ErrorOr E B :=
  match r with
  | inl e => inl e
  | inr (_, b) => inr b
  end.

(** Modelled from the spec: [encodeBatchValue] is defined outside this
    source file. Section 4.3, step 6: the emitted put/remove operations are
    concatenated into one serialized payload. [encodeOp] is the
    serialization of one operation. *)
Definition encodeBatchValueSpec (encodeOp : BatchOp -> string) (batch : list BatchOp)
    : string :=
  String.concat EmptyString (map encodeOp batch).

(** ** A sample instantiation

    Concrete collaborators on which the model computes.  Row readers,
    index values and column definitions are strings; the store is a sorted
    list of entries. *)
Module Sample.

Local Open Scope string_scope.

Definition showZ (z : Z) : string := NilZero.string_of_int (Z.to_int z).

Definition sep : string := "/"%string.

(** Modelled from the spec: [NebulaKeyUtils::isValidVidLen] is defined
    outside this source file. Section 4.1: it rejects vertex ids whose
    length does not equal the space's vertex-id length. *)
Definition isValidVidLen (vidLen : Z) (srcId dstId : VertexID) : bool :=
  Z.eqb (Z.of_nat (String.length srcId)) vidLen
  && Z.eqb (Z.of_nat (String.length dstId)) vidLen.

(** Modelled from the spec: [NebulaKeyUtils::edgePrefix] is defined outside
    this source file. Section 4.1: a prefix shared by the edge record and
    the lock entries of one identity. *)
Definition edgePrefix (vidLen : Z) (partId : PartitionID) (srcId : VertexID)
    (type : EdgeType) (rank : EdgeRanking) (dstId : VertexID) : Key :=
  ("e/" ++ showZ partId ++ sep ++ srcId ++ sep ++ showZ type ++ sep ++ showZ rank
        ++ sep ++ dstId ++ sep)%string.

(** Modelled from the spec: [NebulaKeyUtils::edgeKey] is defined outside
    this source file. Section 4.1: the key of the edge record; it sorts
    after the lock placeholder of the same identity. *)
Definition edgeKey (vidLen : Z) (partId : PartitionID) (srcId : VertexID)
    (type : EdgeType) (rank : EdgeRanking) (dstId : VertexID) : Key :=
  (edgePrefix vidLen partId srcId type rank dstId ++ "v")%string.

Definition lockKey (vidLen : Z) (partId : PartitionID) (srcId : VertexID)
    (type : EdgeType) (rank : EdgeRanking) (dstId : VertexID) : Key :=
  (edgePrefix vidLen partId srcId type rank dstId ++ "l")%string.

Definition lastChar (k : Key) : option Ascii.ascii :=
  String.get (String.length k - 1)%nat k.

(** Modelled from the spec: [NebulaKeyUtils::isLock] and
    [NebulaKeyUtils::isEdge] are defined outside this source file. Section
    4.1: a key is a lock if it has the lock-placeholder encoding and an edge
    record if it has the edge-record encoding. *)
Definition isLock (vidLen : Z) (k : Key) : bool :=
  match lastChar k with
  | Some c => Ascii.eqb c "l"%char
  | None => false
  end.

Definition isEdge (vidLen : Z) (k : Key) : bool :=
  match lastChar k with
  | Some c => Ascii.eqb c "v"%char
  | None => false
  end.

(** Modelled from the spec: [IndexKeyUtils::collectIndexValues] is defined
    outside this source file. Section 4.3: extraction of the indexed field
    values can fail for one index; here it fails when the index names the
    field [missing]. *)
Definition collectIndexValues (reader : string) (cols : list string) : option string :=
  if existsb (String.eqb "missing") cols then None
  else Some (String.concat "," cols ++ "=" ++ reader)%string.

(** Modelled from the spec: [IndexKeyUtils::edgeIndexKey] is defined outside
    this source file (section 4.1, encodeIndexKey). *)
Definition edgeIndexKey (vidLen : Z) (partId : PartitionID) (indexId : IndexID)
    (srcId : VertexID) (rank : EdgeRanking) (dstId : VertexID) (values : string) : Key :=
  ("i/" ++ showZ partId ++ sep ++ showZ indexId ++ sep ++ values ++ sep ++ srcId
        ++ sep ++ showZ rank ++ sep ++ dstId)%string.

(** Modelled from the spec: [OperationKeyUtils::deleteOperationKey] is
    defined outside this source file (section 4.1,
    encodeDeferredIndexDeletion). *)
Definition deleteOperationKey (partId : PartitionID) : Key :=
  ("o/" ++ showZ partId ++ "/delete")%string.

Definition encodeOp (op : BatchOp) : string :=
  match op with
  | OP_BATCH_PUT k v => ("P[" ++ k ++ "=" ++ v ++ "]")%string
  | OP_BATCH_REMOVE k => ("R[" ++ k ++ "]")%string
  end.

Definition keyUtils : KeyUtils string string string :=
  mkKeyUtils isValidVidLen edgeKey edgePrefix isLock isEdge collectIndexValues
             edgeIndexKey deleteOperationKey (encodeBatchValueSpec encodeOp).

(** The environment: the space's vertex-id length and edge indexes (or their
    lookup failures), the stored entries, and the state of the indexes of
    every partition.  A stored value that is empty does not decode. *)
Definition env (vidLen : option Z) (indexes : option (list (IndexItem string)))
    (store : list (Key * Val)) (state : IndexLifecycleState)
    : StorageEnv string string IndexLifecycleState :=
  mkStorageEnv
    (fun _ => vidLen)
    (fun _ => indexes)
    (fun _ _ pfx => (SUCCEEDED, filter (fun kv => String.prefix pfx (fst kv)) store))
    (fun _ _ v => if String.eqb v EmptyString then None else Some v)
    (fun _ _ => state)
    (fun s => match s with Rebuilding => true | _ => false end)
    (fun s => match s with Locked => true | _ => false end).

(** Space vertex-id length 8; the edge ("A"*8 -[1,0]-> "B"*8) and the same
    edge with a source id of 4 bytes. *)
Definition vid8 : Z := 8.
Definition edgeAB : EdgeKey := mkEdgeKey "AAAAAAAA" 1 0 "BBBBBBBB".
Definition edgeShort : EdgeKey := mkEdgeKey "AAAA" 1 0 "BBBBBBBB".
Definition edgeCD : EdgeKey := mkEdgeKey "CCCCCCCC" 1 0 "DDDDDDDD".

Definition idxName : IndexItem string := mkIndexItem 11 1 "by_name" ["name"%string].
Definition idxMissing : IndexItem string := mkIndexItem 12 1 "by_gone" ["missing"%string].
Definition idxOther : IndexItem string := mkIndexItem 13 2 "other_type" ["name"%string].

(** A store holding, for [edgeAB] in partition 1, a stale lock, the record
    and an older artifact. *)
Definition storeAB : list (Key * Val) :=
  [ (lockKey vid8 1 "AAAAAAAA" 1 0 "BBBBBBBB", "lock"%string);
    (edgeKey vid8 1 "AAAAAAAA" 1 0 "BBBBBBBB", "row1"%string);
    ((edgePrefix vid8 1 "AAAAAAAA" 1 0 "BBBBBBBB" ++ "x")%string, "old"%string) ].

Definition indexes3 : list (IndexItem string) := [idxName; idxMissing; idxOther].

(** A store holding the record of [edgeShort] in partition 1. *)
Definition storeShort : list (Key * Val) :=
  [ (edgeKey vid8 1 "AAAA" 1 0 "BBBBBBBB", "row9"%string) ].

Definition reqAB : DeleteEdgesRequest := mkRequest 1 [(1, [edgeAB])].
Definition reqShort : DeleteEdgesRequest := mkRequest 1 [(1, [edgeShort])].
Definition reqTwo : DeleteEdgesRequest := mkRequest 1 [(1, [edgeAB]); (2, [edgeShort])].
Definition reqEmpty : DeleteEdgesRequest := mkRequest 1 [].

(** Environments over [storeAB]: three indexes in each of the three
    states, no index at all, and an unresolvable vertex-id length. *)
Definition envNormal := env (Some 8) (Some indexes3) storeAB Normal.
Definition envRebuilding := env (Some 8) (Some indexes3) storeAB Rebuilding.
Definition envLocked := env (Some 8) (Some indexes3) storeAB Locked.
Definition envNoIndex := env (Some 8) (Some []) storeAB Normal.
Definition envNoVidLen := env None (Some indexes3) storeAB Normal.

Definition recordAB : Key := edgeKey vid8 1 "AAAAAAAA" 1 0 "BBBBBBBB".
Definition staleAB : Key * Val := (edgePrefix vid8 1 "AAAAAAAA" 1 0 "BBBBBBBB" ++ "x", "old").
Definition indexKeyAB : Key := "i/1/11/name=row1/AAAAAAAA/0/BBBBBBBB".

(** A store whose scans fail with a store error, whatever the prefix. *)
Definition envScanError : StorageEnv string string IndexLifecycleState :=
  mkStorageEnv
    (fun _ => Some 8)
    (fun _ => Some indexes3)
    (fun _ _ _ => (E_STORE 7, []))
    (fun _ _ v => if String.eqb v EmptyString then None else Some v)
    (fun _ _ => Normal)
    (fun s => match s with Rebuilding => true | _ => false end)
    (fun s => match s with Locked => true | _ => false end).

(** The record of [edgeAB] with a value that does not decode. *)
Definition storeBadRow : list (Key * Val) := [ (recordAB, "") ].
Definition envBadRow := env (Some 8) (Some indexes3) storeBadRow Normal.

(** Locked indexes, none of which is on the type of [edgeAB]. *)
Definition envLockedOther := env (Some 8) (Some [idxOther]) storeAB Locked.

(** A second index on the type of [edgeAB]. *)
Definition idxAge : IndexItem string := mkIndexItem 14 1 "by_age" ["age"].
Definition indexKeyAgeAB : Key := "i/1/14/age=row1/AAAAAAAA/0/BBBBBBBB".

(** The state of the indexes as read during one construction: rebuilding at
    the first read, normal afterwards (the rebuild ends in between). *)
Definition observedRebuildEnds (n : nat) : IndexLifecycleState :=
  match n with
  | O => Rebuilding
  | S _ => Normal
  end.

Definition observedNormal (n : nat) : IndexLifecycleState := Normal.




(** A store holding the keys of [edgeAB] and the record of [edgeCD], with
    two indexes on their type. *)
Definition recordCD : Key := edgeKey vid8 1 "CCCCCCCC" 1 0 "DDDDDDDD".
Definition storeTwo : list (Key * Val) := storeAB ++ [ (recordCD, "row2") ].
Definition indexesTwo : list (IndexItem string) := [idxName; idxAge].
Definition envTwo := env (Some 8) (Some indexesTwo) storeTwo Normal.

End Sample.

(** * Properties *)

Unset Implicit Arguments.

(** ** The batch builder *)

Section BuilderFacts.

Variables RowReader IndexValues ColumnDef IndexState : Type.
Variable ku : KeyUtils RowReader IndexValues ColumnDef.
Variable env_ : StorageEnv RowReader ColumnDef IndexState.
Variable spaceId : GraphSpaceID.
Variable vidLen : Z.

Let lock (kv : Key * Val) : bool := isLock ku vidLen (fst kv).

Lemma removeLocks_spec : forall iter b,
  removeLocks ku vidLen iter b =
  (dropWhile lock iter, b ++ map removeOf (takeWhile lock iter)).
Proof.
  induction iter as [|[k v] rest IH]; intros b; simpl.
  - now rewrite app_nil_r.
  - unfold lock at 1 3; simpl. destruct (isLock ku vidLen k).
    + rewrite IH. unfold bh_remove. simpl. now rewrite <- app_assoc.
    + simpl. now rewrite app_nil_r.
Qed.

Lemma removeRest_spec : forall iter b,
  removeRest iter b = b ++ map removeOf iter.
Proof.
  induction iter as [|[k v] rest IH]; intros b; simpl.
  - now rewrite app_nil_r.
  - rewrite IH. unfold bh_remove. now rewrite <- app_assoc.
Qed.

(** The per-index loop only appends to the batch holder. *)
Lemma indexLoop_batch : forall partId type srcId rank dstId val idxs reader b,
  indexLoop ku env_ spaceId vidLen partId type srcId rank dstId val reader idxs b =
  (ops <-! indexLoop ku env_ spaceId vidLen partId type srcId rank dstId val reader idxs [] ;;
   inr (b ++ ops)).
Proof.
  intros partId type srcId rank dstId val.
  induction idxs as [|index rest IH]; intros reader b; simpl.
  - now rewrite app_nil_r.
  - destruct (type =? schema_edge_type index); [|apply IH].
    destruct (match reader with
              | Some r => Some r
              | None => getEdgePropReader env_ spaceId type val
              end) as [r|]; [|reflexivity].
    destruct (collectIndexValues ku r (fields index)) as [values|]; [|apply IH].
    destruct (checkRebuilding env_ (getIndexState env_ spaceId partId)).
    + rewrite IH. rewrite (IH _ (bh_put [] _ _)).
      destruct (indexLoop ku env_ spaceId vidLen partId type srcId rank dstId val
                          (Some r) rest []); simpl; [reflexivity|].
      unfold bh_put. now rewrite <- app_assoc.
    + destruct (checkIndexLocked env_ (getIndexState env_ spaceId partId)); [reflexivity|].
      rewrite IH. rewrite (IH _ (bh_remove [] _)).
      destruct (indexLoop ku env_ spaceId vidLen partId type srcId rank dstId val
                          (Some r) rest []); simpl; [reflexivity|].
      unfold bh_remove. now rewrite <- app_assoc.
Qed.

(** Once the record decodes, it does not matter whether the reader was
    created already. *)
Lemma indexLoop_reader : forall partId type srcId rank dstId val r idxs b,
  getEdgePropReader env_ spaceId type val = Some r ->
  indexLoop ku env_ spaceId vidLen partId type srcId rank dstId val None idxs b =
  indexLoop ku env_ spaceId vidLen partId type srcId rank dstId val (Some r) idxs b.
Proof.
  intros partId type srcId rank dstId val r idxs b Hr. revert b.
  induction idxs as [|index rest IH]; intros b; simpl; [reflexivity|].
  destruct (type =? schema_edge_type index); [|apply IH].
  now rewrite Hr.
Qed.

(** What one edge contributes, in terms of the scanned entries. *)
Lemma deleteEdge_inr : forall indexes partId edge b b',
  deleteEdge ku env_ spaceId vidLen indexes partId edge b = inr b' ->
  let scan := kv_prefix env_ spaceId partId
                (edgePrefix ku vidLen partId (src edge) (edge_type edge)
                            (ranking edge) (dst edge)) in
  fst scan = SUCCEEDED /\
  exists indexOps,
    b' = b ++ orderedEdgeOps (isLock ku vidLen) (isEdge ku vidLen) (snd scan) indexOps /\
    forall k v rest,
      dropWhile lock (snd scan) = (k, v) :: rest ->
      isEdge ku vidLen k = true ->
      indexLoop ku env_ spaceId vidLen partId (edge_type edge) (src edge) (ranking edge)
                (dst edge) v None indexes [] = inr indexOps.
Proof.
  intros indexes partId edge b b'. unfold deleteEdge.
  destruct (kv_prefix env_ spaceId partId _) as [ret iter] eqn:Hscan. simpl.
  unfold ErrorCode_eqb. destruct (ErrorCode_eq_dec ret SUCCEEDED) as [->|]; [|discriminate].
  rewrite removeLocks_spec. fold lock. unfold orderedEdgeOps. fold lock.
  intros H. split; [reflexivity|].
  destruct (dropWhile lock iter) as [|[k v] rest] eqn:Hdrop; simpl in H.
  - exists []. split; [|discriminate].
    injection H as <-. now rewrite app_nil_r.
  - destruct (isEdge ku vidLen k) eqn:Hedge.
    + rewrite indexLoop_batch in H.
      destruct (indexLoop ku env_ spaceId vidLen partId (edge_type edge) (src edge)
                          (ranking edge) (dst edge) v None indexes []) as [e|indexOps] eqn:Hloop;
        simpl in H; [discriminate|].
      exists indexOps. split.
      * injection H as <-. rewrite removeRest_spec. unfold bh_remove.
        repeat rewrite <- app_assoc. reflexivity.
      * intros k' v' rest' Heq _. injection Heq as <- <- <-. exact Hloop.
    + exists []. split.
      * simpl in H. injection H as <-. rewrite removeRest_spec.
        unfold bh_remove. simpl. repeat rewrite <- app_assoc. reflexivity.
      * intros k' v' rest' Heq Hk. injection Heq as <- <- <-. congruence.
Qed.

Lemma deleteEdge_batch : forall indexes partId edge b,
  deleteEdge ku env_ spaceId vidLen indexes partId edge b =
  (ops <-! deleteEdge ku env_ spaceId vidLen indexes partId edge [] ;; inr (b ++ ops)).
Proof.
  intros indexes partId edge b. unfold deleteEdge.
  destruct (kv_prefix env_ spaceId partId _) as [ret iter].
  destruct (ErrorCode_eqb ret SUCCEEDED); [|reflexivity].
  rewrite !removeLocks_spec. simpl app.
  destruct (dropWhile lock iter) as [|[k v] rest]; simpl.
  - reflexivity.
  - destruct (isEdge ku vidLen k); simpl.
    + rewrite indexLoop_batch.
      rewrite (indexLoop_batch _ _ _ _ _ _ _ _ (map removeOf (takeWhile lock iter))).
      destruct (indexLoop ku env_ spaceId vidLen partId (edge_type edge) (src edge)
                          (ranking edge) (dst edge) v None indexes []); simpl; [reflexivity|].
      rewrite !removeRest_spec. unfold bh_remove. now rewrite <- !app_assoc.
    + rewrite !removeRest_spec. unfold bh_remove. now rewrite <- !app_assoc.
Qed.

Lemma deleteEdgesLoop_batch : forall indexes partId edges b,
  deleteEdgesLoop ku env_ spaceId vidLen indexes partId edges b =
  (ops <-! deleteEdgesLoop ku env_ spaceId vidLen indexes partId edges [] ;; inr (b ++ ops)).
Proof.
  intros indexes partId. induction edges as [|edge rest IH]; intros b; simpl.
  - now rewrite app_nil_r.
  - rewrite deleteEdge_batch.
    destruct (deleteEdge ku env_ spaceId vidLen indexes partId edge []) as [e|ops]; simpl;
      [reflexivity|].
    rewrite IH. rewrite (IH ops).
    destruct (deleteEdgesLoop ku env_ spaceId vidLen indexes partId rest []); simpl;
      [reflexivity|].
    now rewrite <- app_assoc.
Qed.

Lemma deleteEdgesLoop_app : forall indexes partId pre post b,
  deleteEdgesLoop ku env_ spaceId vidLen indexes partId (pre ++ post) b =
  (b' <-! deleteEdgesLoop ku env_ spaceId vidLen indexes partId pre b ;;
   deleteEdgesLoop ku env_ spaceId vidLen indexes partId post b').
Proof.
  intros indexes partId. induction pre as [|edge rest IH]; intros post b; simpl.
  - reflexivity.
  - destruct (deleteEdge ku env_ spaceId vidLen indexes partId edge b); simpl;
      [reflexivity|apply IH].
Qed.

Lemma takeWhile_dropWhile : forall (A : Type) (p : A -> bool) (l : list A),
  takeWhile p l ++ dropWhile p l = l.
Proof.
  intros A p. induction l as [|x r IH]; simpl; [reflexivity|].
  destruct (p x); simpl; [now rewrite IH|reflexivity].
Qed.

(** The three outcomes of the per-index loop, by the state of the
    partition's indexes, once the record has been decoded. *)
Lemma indexLoop_decoded : forall partId edge val r idxs b,
  indexLoop ku env_ spaceId vidLen partId (edge_type edge) (src edge) (ranking edge)
            (dst edge) val (Some r) idxs b =
  match lifecycle env_ (getIndexState env_ spaceId partId) with
  | Rebuilding =>
      inr (b ++ map (OP_BATCH_PUT (deleteOperationKey ku partId))
                    (indexKeys ku vidLen partId edge r idxs))
  | Normal => inr (b ++ map OP_BATCH_REMOVE (indexKeys ku vidLen partId edge r idxs))
  | Locked =>
      match indexKeys ku vidLen partId edge r idxs with
      | [] => inr b
      | _ :: _ => inl E_DATA_CONFLICT_ERROR
      end
  end.
Proof.
  intros partId edge val r. unfold lifecycle.
  induction idxs as [|index rest IH]; intros b; simpl.
  - destruct (checkRebuilding env_ _); [|destruct (checkIndexLocked env_ _)];
      now rewrite ?app_nil_r.
  - destruct (edge_type edge =? schema_edge_type index); [|apply IH].
    destruct (collectIndexValues ku r (fields index)) as [values|]; [|apply IH].
    destruct (checkRebuilding env_ (getIndexState env_ spaceId partId)).
    + rewrite IH. unfold bh_put. simpl. now rewrite <- app_assoc.
    + destruct (checkIndexLocked env_ (getIndexState env_ spaceId partId)); [reflexivity|].
      rewrite IH. unfold bh_remove. simpl. now rewrite <- app_assoc.
Qed.

(** A loop that succeeds from a fresh reader either met no index of the
    edge's type or decoded the record. *)
Lemma indexLoop_fresh : forall partId edge val idxs b b',
  indexLoop ku env_ spaceId vidLen partId (edge_type edge) (src edge) (ranking edge)
            (dst edge) val None idxs b = inr b' ->
  (b' = b /\ forall index, In index idxs -> (edge_type edge =? schema_edge_type index) = false)
  \/ exists r, getEdgePropReader env_ spaceId (edge_type edge) val = Some r.
Proof.
  intros partId edge val. induction idxs as [|index rest IH]; intros b b' H; simpl in H.
  - left. split; [congruence|]. intros index [].
  - destruct (edge_type edge =? schema_edge_type index) eqn:Hty.
    + destruct (getEdgePropReader env_ spaceId (edge_type edge) val) as [r|];
        [right; now exists r|discriminate].
    + destruct (IH _ _ H) as [[-> Hno]|Hr]; [left|now right].
      split; [reflexivity|]. intros i [<-|Hi]; [exact Hty|now apply Hno].
Qed.

Lemma indexKeys_no_type : forall partId edge (r : RowReader) idxs,
  (forall index, In index idxs -> (edge_type edge =? schema_edge_type index) = false) ->
  indexKeys ku vidLen partId edge r idxs = [].
Proof.
  intros partId edge r. induction idxs as [|index rest IH]; intros H; simpl; [reflexivity|].
  rewrite (H index (or_introl eq_refl)). simpl. apply IH.
  intros i Hi. apply H. now right.
Qed.

Lemma indexKeys_In : forall partId edge (r : RowReader) idxs index values,
  In index idxs ->
  edge_type edge = schema_edge_type index ->
  collectIndexValues ku r (fields index) = Some values ->
  In (edgeIndexKey ku vidLen partId (index_id index) (src edge) (ranking edge) (dst edge)
                   values)
     (indexKeys ku vidLen partId edge r idxs).
Proof.
  intros partId edge r idxs index values Hin Hty Hval. unfold indexKeys.
  apply in_flat_map. exists index. split; [exact Hin|].
  rewrite Hty, Z.eqb_refl, Hval. now left.
Qed.

(** The operations of a successful per-index loop are all deferred
    deletions when the partition's indexes are rebuilding, and all direct
    removals otherwise. *)
Lemma indexLoop_uniform : forall partId edge val idxs ops,
  indexLoop ku env_ spaceId vidLen partId (edge_type edge) (src edge) (ranking edge)
            (dst edge) val None idxs [] = inr ops ->
  if checkRebuilding env_ (getIndexState env_ spaceId partId)
  then forallb isPut ops = true
  else forallb isRemove ops = true.
Proof.
  intros partId edge val idxs ops H.
  destruct (indexLoop_fresh _ _ _ _ _ _ H) as [[-> _]|[r Hr]].
  - now destruct (checkRebuilding env_ _).
  - erewrite indexLoop_reader in H by exact Hr.
    rewrite indexLoop_decoded in H. unfold lifecycle in H.
    destruct (checkRebuilding env_ (getIndexState env_ spaceId partId)).
    + injection H as <-. simpl. induction (indexKeys ku vidLen partId edge r idxs);
        simpl; auto.
    + destruct (checkIndexLocked env_ (getIndexState env_ spaceId partId)).
      * destruct (indexKeys ku vidLen partId edge r idxs); [|discriminate].
        now injection H as <-.
      * injection H as <-. simpl. induction (indexKeys ku vidLen partId edge r idxs);
          simpl; auto.
Qed.

(** Where the operations of one edge sit in the batch of its partition. *)
Lemma deleteEdgesLoop_edge : forall indexes partId pre edge post batch,
  deleteEdgesLoop ku env_ spaceId vidLen indexes partId (pre ++ edge :: post) [] = inr batch ->
  let iter := snd (kv_prefix env_ spaceId partId
                     (edgePrefix ku vidLen partId (src edge) (edge_type edge)
                                 (ranking edge) (dst edge))) in
  exists before indexOps after,
    deleteEdgesLoop ku env_ spaceId vidLen indexes partId pre [] = inr before /\
    batch = before ++
            orderedEdgeOps (isLock ku vidLen) (isEdge ku vidLen) iter indexOps ++ after /\
    (forall k v rest,
        dropWhile lock iter = (k, v) :: rest ->
        isEdge ku vidLen k = true ->
        indexLoop ku env_ spaceId vidLen partId (edge_type edge) (src edge)
                  (ranking edge) (dst edge) v None indexes [] = inr indexOps).
Proof.
  intros indexes partId pre edge post batch Hloop iter.
  rewrite deleteEdgesLoop_app in Hloop.
  destruct (deleteEdgesLoop ku env_ spaceId vidLen indexes partId pre []) as [e|before];
    simpl in Hloop; [discriminate|].
  destruct (deleteEdge ku env_ spaceId vidLen indexes partId edge before) as [e|mid] eqn:Hedge;
    simpl in Hloop; [discriminate|].
  apply deleteEdge_inr in Hedge. destruct Hedge as [_ [indexOps [-> Hidx]]].
  rewrite deleteEdgesLoop_batch in Hloop.
  destruct (deleteEdgesLoop ku env_ spaceId vidLen indexes partId post []) as [e|after];
    simpl in Hloop; [discriminate|].
  injection Hloop as <-.
  exists before, indexOps, after. split; [reflexivity|]. split.
  - now rewrite <- app_assoc.
  - exact Hidx.
Qed.

(** A removal among one edge's operations is the removal of a scanned key,
    unless the per-index loop issued it. *)
Lemma orderedEdgeOps_remove : forall (L E : Key -> bool) iter indexOps key,
  In (OP_BATCH_REMOVE key) (orderedEdgeOps L E iter indexOps) ->
  In key (map fst iter) \/
  (exists k v rest,
      dropWhile (fun kv => L (fst kv)) iter = (k, v) :: rest /\ E k = true /\
      In (OP_BATCH_REMOVE key) indexOps).
Proof.
  intros L E iter indexOps key H. unfold orderedEdgeOps in H.
  rewrite <- (takeWhile_dropWhile _ (fun kv => L (fst kv)) iter) at 1.
  rewrite map_app, in_app_iff.
  apply in_app_or in H. destruct H as [H|H].
  - left. left. apply in_map_iff in H. destruct H as [kv [Heq Hin]].
    injection Heq as <-. now apply in_map.
  - destruct (dropWhile (fun kv => L (fst kv)) iter) as [|[k v] rest]; [destruct H|].
    destruct (E k) eqn:HE.
    + apply in_app_or in H. destruct H as [H|[H|H]].
      * right. now exists k, v, rest.
      * injection H as <-. left. right. now left.
      * apply in_map_iff in H. destruct H as [kv [Heq Hin]]. injection Heq as <-.
        left. right. right. now apply in_map.
    + apply in_map_iff in H. destruct H as [kv [Heq Hin]]. injection Heq as <-.
      left. right. now apply in_map.
Qed.

Lemma forallb_isPut_remove : forall ops key,
  forallb isPut ops = true -> ~ In (OP_BATCH_REMOVE key) ops.
Proof.
  intros ops key H Hin. rewrite forallb_forall in H. now apply H in Hin.
Qed.

Lemma forallb_isRemove_put : forall ops k v,
  forallb isRemove ops = true -> ~ In (OP_BATCH_PUT k v) ops.
Proof.
  intros ops k v H Hin. rewrite forallb_forall in H. now apply H in Hin.
Qed.

(** While the partition's indexes are rebuilding, every removal in the
    batch is the removal of a key scanned under the prefix of one of the
    partition's edges. *)
Lemma rebuilding_removes_scanned : forall indexes partId,
  checkRebuilding env_ (getIndexState env_ spaceId partId) = true ->
  forall edges b b',
    deleteEdgesLoop ku env_ spaceId vidLen indexes partId edges b = inr b' ->
    forall key, In (OP_BATCH_REMOVE key) b' ->
      In (OP_BATCH_REMOVE key) b \/
      exists e, In e edges /\
        In key (map fst (snd (kv_prefix env_ spaceId partId
                                (edgePrefix ku vidLen partId (src e) (edge_type e)
                                            (ranking e) (dst e))))).
Proof.
  intros indexes partId Hreb. induction edges as [|edge rest IH]; intros b b' H key Hin.
  - simpl in H. injection H as <-. now left.
  - simpl in H.
    destruct (deleteEdge ku env_ spaceId vidLen indexes partId edge b) as [e|b1] eqn:Hedge;
      simpl in H; [discriminate|].
    destruct (IH _ _ H key Hin) as [Hb1|[e [He Hk]]].
    + apply deleteEdge_inr in Hedge. destruct Hedge as [_ [indexOps [-> Hidx]]].
      apply in_app_or in Hb1. destruct Hb1 as [Hb|Hops]; [now left|].
      right. exists edge. split; [now left|].
      destruct (orderedEdgeOps_remove _ _ _ _ _ Hops) as [Hscan|Hix]; [exact Hscan|].
      exfalso. destruct Hix as [k [v [rest' [Hdrop [Hk Hix]]]]].
      specialize (Hidx _ _ _ Hdrop Hk). apply indexLoop_uniform in Hidx.
      rewrite Hreb in Hidx. exact (forallb_isPut_remove _ _ Hidx Hix).
    + right. exists e. split; [now right|exact Hk].
Qed.

(** An edge whose record has an index entry to maintain while the
    partition's indexes are locked ends the construction with a conflict. *)
Lemma locked_edge_conflict : forall indexes partId pre edge post before iter k v rest r index values,
  lifecycle env_ (getIndexState env_ spaceId partId) = Locked ->
  deleteEdgesLoop ku env_ spaceId vidLen indexes partId pre [] = inr before ->
  kv_prefix env_ spaceId partId
            (edgePrefix ku vidLen partId (src edge) (edge_type edge) (ranking edge) (dst edge))
  = (SUCCEEDED, iter) ->
  dropWhile lock iter = (k, v) :: rest ->
  isEdge ku vidLen k = true ->
  getEdgePropReader env_ spaceId (edge_type edge) v = Some r ->
  In index indexes ->
  edge_type edge = schema_edge_type index ->
  collectIndexValues ku r (fields index) = Some values ->
  deleteEdges ku env_ spaceId vidLen indexes partId (pre ++ edge :: post) =
  inl E_DATA_CONFLICT_ERROR.
Proof.
  intros indexes partId pre edge post before iter k v rest r index values
         Hlocked Hpre Hscan Hdrop Hk Hr Hin Hty Hval.
  unfold deleteEdges. rewrite deleteEdgesLoop_app, Hpre. cbn [bindE deleteEdgesLoop].
  unfold deleteEdge. rewrite Hscan. cbn [ErrorCode_eqb].
  destruct (ErrorCode_eq_dec SUCCEEDED SUCCEEDED) as [_|Hne]; [|congruence].
  rewrite removeLocks_spec, Hdrop. unfold removeRecord. rewrite Hk.
  erewrite indexLoop_reader by exact Hr. rewrite indexLoop_decoded, Hlocked.
  pose proof (indexKeys_In partId edge r indexes index values Hin Hty Hval) as Hkey.
  destruct (indexKeys ku vidLen partId edge r indexes); [destruct Hkey|reflexivity].
Qed.

(** The builder never consults the vertex-id length check: replacing it
    does not change what [deleteEdges] returns. *)
Lemma deleteEdges_ignores_isValidVidLen :
  forall (valid' : Z -> VertexID -> VertexID -> bool) indexes partId edges,
    deleteEdges
      (mkKeyUtils valid' (edgeKey ku) (edgePrefix ku) (isLock ku) (isEdge ku)
                  (collectIndexValues ku) (edgeIndexKey ku) (deleteOperationKey ku)
                  (encodeBatchValue ku))
      env_ spaceId vidLen indexes partId edges =
    deleteEdges ku env_ spaceId vidLen indexes partId edges.
Proof. reflexivity. Qed.


End BuilderFacts.

Section BuilderClaims.

Variables RowReader IndexValues ColumnDef IndexState : Type.
Variable ku : KeyUtils RowReader IndexValues ColumnDef.
Variable env_ : StorageEnv RowReader ColumnDef IndexState.

(** C5.  When the indexes of the partition are rebuilding and the batch of
    the partition is built, then for every edge with a stored record and
    every index of its type whose values are extracted, the batch holds a
    put of the deferred-deletion key whose value is the index key; every
    removal in the batch removes a key scanned under an edge's prefix, so
    the index key is not removed (unless it is itself stored under such a
    prefix). *)
Theorem C5_rebuilding_defers_index_deletion :
  forall spaceId vidLen indexes partId pre edge post payload k v rest r index values,
    checkRebuilding env_ (getIndexState env_ spaceId partId) = true ->
    deleteEdges ku env_ spaceId vidLen indexes partId (pre ++ edge :: post) = inr payload ->
    let scanned e :=
      map fst (snd (kv_prefix env_ spaceId partId
                      (edgePrefix ku vidLen partId (src e) (edge_type e) (ranking e) (dst e)))) in
    dropWhile (fun kv => isLock ku vidLen (fst kv))
              (snd (kv_prefix env_ spaceId partId
                      (edgePrefix ku vidLen partId (src edge) (edge_type edge)
                                  (ranking edge) (dst edge)))) = (k, v) :: rest ->
    isEdge ku vidLen k = true ->
    getEdgePropReader env_ spaceId (edge_type edge) v = Some r ->
    In index indexes ->
    edge_type edge = schema_edge_type index ->
    collectIndexValues ku r (fields index) = Some values ->
    let indexKey := edgeIndexKey ku vidLen partId (index_id index) (src edge) (ranking edge)
                                 (dst edge) values in
    exists batch,
      payload = encodeBatchValue ku batch /\
      In (OP_BATCH_PUT (deleteOperationKey ku partId) indexKey) batch /\
      (forall key, In (OP_BATCH_REMOVE key) batch ->
                   exists e, In e (pre ++ edge :: post) /\ In key (scanned e)) /\
      ((forall e, In e (pre ++ edge :: post) -> ~ In indexKey (scanned e)) ->
       ~ In (OP_BATCH_REMOVE indexKey) batch).
Proof.
  intros spaceId vidLen indexes partId pre edge post payload k v rest r index values
         Hreb H scanned Hdrop Hk Hr Hin Hty Hval indexKey.
  unfold deleteEdges in H.
  destruct (deleteEdgesLoop ku env_ spaceId vidLen indexes partId (pre ++ edge :: post) [])
    as [e|batch] eqn:Hloop; simpl in H; [discriminate|].
  injection H as <-. exists batch. split; [reflexivity|].
  assert (Hrem : forall key, In (OP_BATCH_REMOVE key) batch ->
                   exists e, In e (pre ++ edge :: post) /\ In key (scanned e)).
  { intros key Hkey.
    destruct (rebuilding_removes_scanned _ _ _ _ _ _ _ _ _ _ Hreb _ _ _ Hloop key Hkey)
      as [[]|He]. exact He. }
  split; [|split; [exact Hrem|]].
  - destruct (deleteEdgesLoop_edge _ _ _ _ _ _ _ _ _ _ _ _ _ _ Hloop)
      as [before [indexOps [after [_ [-> Hidx]]]]].
    specialize (Hidx _ _ _ Hdrop Hk).
    erewrite indexLoop_reader in Hidx by exact Hr.
    rewrite indexLoop_decoded in Hidx. unfold lifecycle in Hidx. rewrite Hreb in Hidx.
    injection Hidx as <-.
    apply in_or_app. right. apply in_or_app. left.
    unfold orderedEdgeOps. apply in_or_app. right. rewrite Hdrop, Hk.
    apply in_or_app. left. apply in_map. now apply indexKeys_In.
  - intros Hsep Hbad. destruct (Hrem _ Hbad) as [e [He Hscan]]. exact (Hsep e He Hscan).
Qed.

End BuilderClaims.

(** ** The orchestrator *)

Section ProcessFacts.

Variables RowReader IndexValues ColumnDef IndexState : Type.
Variable ku : KeyUtils RowReader IndexValues ColumnDef.
Variable env_ : StorageEnv RowReader ColumnDef IndexState.

Lemma handleAsync_codes : forall spaceId partId code st,
  codes_ (handleAsync spaceId partId code st) = codes_ st ++ [(partId, code)].
Proof.
  intros. unfold handleAsync. simpl. now destruct (callingNum_ st - 1 =? 0).
Qed.

Lemma handleAsync_inflight : forall spaceId partId code st,
  inflight_ (handleAsync spaceId partId code st) = inflight_ st.
Proof.
  intros. unfold handleAsync. simpl. now destruct (callingNum_ st - 1 =? 0).
Qed.

Lemma handleAsync_edgesML : forall spaceId partId code st,
  edgesML_ (handleAsync spaceId partId code st) = edgesML_ st.
Proof.
  intros. unfold handleAsync. simpl. now destruct (callingNum_ st - 1 =? 0).
Qed.

Lemma handleAsync_callingNum : forall spaceId partId code st,
  callingNum_ (handleAsync spaceId partId code st) = callingNum_ st - 1.
Proof.
  intros. unfold handleAsync. simpl. now destruct (callingNum_ st - 1 =? 0).
Qed.

Lemma handleAsync_finished : forall spaceId partId code st,
  finished_ (handleAsync spaceId partId code st) =
  if callingNum_ st - 1 =? 0 then S (finished_ st) else finished_ st.
Proof.
  intros. unfold handleAsync. simpl. now destruct (callingNum_ st - 1 =? 0).
Qed.

(** The key-collecting loop of the fast path stops at the first edge whose
    vertex ids fail the check. *)
Lemma collectKeys_spec : forall vidLen partId edges keys,
  collectKeys ku vidLen partId edges keys =
  if forallb (fun ek => isValidVidLen ku vidLen (src ek) (dst ek)) edges
  then (SUCCEEDED,
        keys ++ map (fun ek => edgeKey ku vidLen partId (src ek) (edge_type ek) (ranking ek)
                                       (dst ek)) edges)
  else (E_INVALID_VID,
        keys ++ map (fun ek => edgeKey ku vidLen partId (src ek) (edge_type ek) (ranking ek)
                                       (dst ek))
                    (takeWhile (fun ek => isValidVidLen ku vidLen (src ek) (dst ek)) edges)).
Proof.
  intros vidLen partId. induction edges as [|ek rest IH]; intros keys; simpl.
  - now rewrite app_nil_r.
  - destruct (isValidVidLen ku vidLen (src ek) (dst ek)); simpl.
    + rewrite IH. destruct (forallb _ rest); now rewrite <- app_assoc.
    + now rewrite app_nil_r.
Qed.

Lemma noIndexPart_spec : forall spaceId vidLen partId edges st,
  noIndexPart ku spaceId vidLen (partId, edges) st =
  if forallb (fun ek => isValidVidLen ku vidLen (src ek) (dst ek)) edges
  then doRemove spaceId partId
         (map (fun ek => edgeKey ku vidLen partId (src ek) (edge_type ek) (ranking ek) (dst ek))
              edges) st
  else handleAsync spaceId partId E_INVALID_VID st.
Proof.
  intros. unfold noIndexPart. simpl. rewrite collectKeys_spec.
  now destruct (forallb _ edges).
Qed.

(** What dispatching one partition does to the processor: it either reports
    one code for the partition, or hands one submission for the partition
    to the store. *)
Lemma dispatchPart_footprint : forall spaceId vidLen indexes part st,
  let st' := dispatchPart ku env_ spaceId vidLen indexes part st in
  (exists code, st' = handleAsync spaceId (fst part) code st) \/
  (exists sub guard held,
      st' = set_inflight (inflight_ st ++ [mkPending (fst part) sub guard])
                         (set_edgesML held st)).
Proof.
  intros spaceId vidLen indexes [partId edges] st. simpl.
  destruct indexes as [|index indexes]; simpl.
  - rewrite noIndexPart_spec. destruct (forallb _ edges).
    + right. eexists _, [], (edgesML_ st). unfold doRemove. now destruct st.
    + left. now eexists.
  - unfold indexPart. simpl.
    destruct (deleteEdges ku env_ spaceId vidLen (index :: indexes) partId edges) as [e|batch].
    + left. now eexists.
    + destruct (MemoryLockGuard (edgesML_ st) _) as [held|].
      * right. now eexists _, _, held.
      * left. now eexists.
Qed.

Lemma steps_trans : forall spaceId vidLen indexes c1 c2 c3,
  steps ku env_ spaceId vidLen indexes c1 c2 ->
  steps ku env_ spaceId vidLen indexes c2 c3 ->
  steps ku env_ spaceId vidLen indexes c1 c3.
Proof.
  intros spaceId vidLen indexes c1 c2 c3 H12 H23. induction H23.
  - exact H12.
  - eapply steps_cons; [apply IHsteps; exact H12|eassumption].
Qed.

(** The dispatch loop of [process] is a run of the step relation in which
    no completion arrives before the loop ends. *)
Lemma dispatch_steps : forall spaceId vidLen indexes todo st,
  steps ku env_ spaceId vidLen indexes (todo, st)
        ([], fold_left (fun s part => dispatchPart ku env_ spaceId vidLen indexes part s)
                       todo st).
Proof.
  intros spaceId vidLen indexes. induction todo as [|part todo IH]; intros st; simpl.
  - apply steps_refl.
  - eapply steps_trans; [|apply IH].
    eapply steps_cons; [apply steps_refl|apply step_dispatch].
Qed.

Lemma process_dispatch : forall req st vidLen indexes,
  getSpaceVidLen env_ (space_id req) = Some vidLen ->
  getEdgeIndexes env_ (space_id req) = Some indexes ->
  process ku env_ req st =
  fold_left (fun s part => dispatchPart ku env_ (space_id req) vidLen indexes part s)
            (parts req) (set_callingNum (Z.of_nat (List.length (parts req))) st).
Proof.
  intros req st vidLen indexes Hv Hi. unfold process. rewrite Hv, Hi.
  now destruct indexes.
Qed.

Lemma process_reachable : forall req held,
  reachable ku env_ req held ([], process ku env_ req (newProcessor held)).
Proof.
  intros req held. unfold reachable.
  destruct (getSpaceVidLen env_ (space_id req)) as [vidLen|] eqn:Hv; [|reflexivity].
  destruct (getEdgeIndexes env_ (space_id req)) as [indexes|] eqn:Hi; [|reflexivity].
  rewrite (process_dispatch _ _ _ _ Hv Hi). apply dispatch_steps.
Qed.

Lemma step_invariant : forall spaceId vidLen indexes names c c',
  step ku env_ spaceId vidLen indexes c c' ->
  accounted names c -> counting c ->
  accounted names c' /\ counting c'.
Proof.
  intros spaceId vidLen indexes names c c' Hstep. unfold accounted, counting.
  destruct Hstep as [part todo st|todo st l1 cb l2 code Hfl|todo st held]; cbn [fst snd].
  - intros Hacc [Hnum Hfin]. cbn [map List.length] in Hacc, Hnum.
    destruct (dispatchPart_footprint spaceId vidLen indexes part st)
      as [[code ->]|[sub [guard [held ->]]]].
    + rewrite handleAsync_codes, handleAsync_inflight, handleAsync_callingNum,
        handleAsync_finished. rewrite map_app. cbn [map fst]. split.
      * etransitivity; [exact Hacc|]. rewrite !app_assoc. apply Permutation_cons_append.
      * split; [lia|].
        destruct (callingNum_ st =? 0) eqn:H0; [apply Z.eqb_eq in H0; lia|].
        rewrite Hfin. now destruct (callingNum_ st - 1 =? 0).
    + cbn [set_inflight set_edgesML inflight_ codes_ callingNum_ finished_].
      rewrite map_app. cbn [map cb_part]. split.
      * etransitivity; [exact Hacc|]. rewrite <- !app_assoc. cbn [app].
        rewrite app_assoc. rewrite (app_assoc (map fst todo)). apply Permutation_middle.
      * split; [rewrite length_app; cbn [List.length]; lia|exact Hfin].
  - intros Hacc [Hnum Hfin]. rewrite Hfl in Hacc, Hnum.
    unfold complete. cbn [set_inflight set_edgesML inflight_ codes_ callingNum_ finished_].
    rewrite handleAsync_codes, handleAsync_inflight, handleAsync_callingNum,
      handleAsync_finished.
    cbn [set_inflight set_edgesML inflight_ codes_ callingNum_ finished_].
    rewrite length_app in Hnum. cbn [List.length] in Hnum. split.
    + etransitivity; [exact Hacc|]. apply Permutation_app_head.
      rewrite !map_app. cbn [map fst]. rewrite <- !app_assoc. cbn [app].
      apply Permutation_app_head. rewrite app_assoc.
      etransitivity; [|apply Permutation_cons_append]. reflexivity.
    + split; [rewrite length_app; lia|].
      destruct (callingNum_ st =? 0) eqn:H0; [apply Z.eqb_eq in H0; lia|].
      rewrite Hfin. now destruct (callingNum_ st - 1 =? 0).
  - intros Hacc Hcnt. split; assumption.
Qed.

Lemma steps_invariant : forall spaceId vidLen indexes names c c',
  steps ku env_ spaceId vidLen indexes c c' ->
  accounted names c -> counting c ->
  accounted names c' /\ counting c'.
Proof.
  intros spaceId vidLen indexes names c c' Hsteps Hacc Hcnt.
  induction Hsteps as [c|c1 c2 c3 H12 IH H23]; [now split|].
  destruct IH as [Hacc2 Hcnt2]; try assumption.
  eapply step_invariant; eassumption.
Qed.

(** Completing every submission in flight empties the list. *)
Lemma complete_all : forall spaceId vidLen indexes n st,
  List.length (inflight_ st) = n ->
  exists st', steps ku env_ spaceId vidLen indexes ([], st) ([], st') /\ inflight_ st' = [].
Proof.
  intros spaceId vidLen indexes. induction n as [|n IH]; intros st Hlen.
  - exists st. split; [apply steps_refl|].
    now destruct (inflight_ st).
  - destruct (inflight_ st) as [|cb l] eqn:Hfl; [discriminate|].
    injection Hlen as Hlen.
    destruct (IH (complete spaceId cb SUCCEEDED (set_inflight ([] ++ l) st))) as [st' [Hrun Hq]].
    + unfold complete. cbn [set_edgesML inflight_]. now rewrite handleAsync_inflight.
    + exists st'. split; [|exact Hq].
      eapply steps_trans; [|exact Hrun].
      eapply steps_cons; [apply steps_refl|].
      apply (step_complete ku env_ spaceId vidLen indexes [] st [] cb l SUCCEEDED Hfl).
Qed.

(** Every configuration has a run to a quiescent one: the dispatch loop
    ends and every submission can complete. *)
Lemma run_to_quiescence : forall spaceId vidLen indexes c,
  exists c', steps ku env_ spaceId vidLen indexes c c' /\ quiescent c'.
Proof.
  intros spaceId vidLen indexes [todo st].
  destruct (complete_all spaceId vidLen indexes _
              (fold_left (fun s part => dispatchPart ku env_ spaceId vidLen indexes part s)
                         todo st) eq_refl) as [st' [Hrun Hq]].
  exists ([], st'). split; [|now split].
  eapply steps_trans; [apply dispatch_steps|exact Hrun].
Qed.

Lemma push_all_codes : forall code (todo : list (PartitionID * list EdgeKey)) st,
  let st' := fold_left (fun s part => pushResultCode code (fst part) s) todo st in
  codes_ st' = codes_ st ++ map (fun part => (fst part, code)) todo /\
  callingNum_ st' = callingNum_ st /\ finished_ st' = finished_ st /\
  edgesML_ st' = edgesML_ st /\ inflight_ st' = inflight_ st.
Proof.
  intros code. induction todo as [|part todo IH]; intros st; cbn [fold_left map].
  - now rewrite app_nil_r.
  - destruct (IH (pushResultCode code (fst part) st)) as [Hc [Hn [Hf [He Hi]]]].
    cbv zeta in *. rewrite Hc, Hn, Hf, He, Hi. cbn [pushResultCode codes_].
    now rewrite <- app_assoc.
Qed.

(** The two facts every reachable configuration satisfies, for a request
    that names at least one partition. *)
Lemma reachable_invariant : forall req held c,
  parts req <> [] ->
  reachable ku env_ req held c ->
  accounted (map fst (parts req)) c /\
  (finished_ (snd c) = 1%nat <-> List.length (codes_ (snd c)) = List.length (parts req)) /\
  (finished_ (snd c) = 0%nat \/ finished_ (snd c) = 1%nat).
Proof.
  intros req held c Hne Hreach. unfold reachable in Hreach.
  assert (Hfail : forall code,
    c = ([], onFinished (fold_left (fun s part => pushResultCode code (fst part) s)
                                   (parts req) (newProcessor held))) \/
    c = ([], onFinished (fold_left (fun s part => pushResultCode code (fst part) s)
                                   (parts req)
                                   (set_callingNum (Z.of_nat (List.length (parts req)))
                                                   (newProcessor held)))) ->
    accounted (map fst (parts req)) c /\
    (finished_ (snd c) = 1%nat <-> List.length (codes_ (snd c)) = List.length (parts req)) /\
    (finished_ (snd c) = 0%nat \/ finished_ (snd c) = 1%nat)).
  { intros code [->| ->]; unfold accounted; cbn [fst snd onFinished codes_ inflight_ finished_];
      match goal with
      | |- context [fold_left _ _ ?s] =>
          destruct (push_all_codes code (parts req) s) as [Hc [_ [Hf [_ Hi]]]]
      end; cbv zeta in Hc, Hf, Hi; rewrite Hc, Hf, Hi;
      cbn [newProcessor set_callingNum codes_ inflight_ finished_ map app];
      rewrite map_map, length_map; cbn [fst];
      (split; [reflexivity|split; [split; reflexivity|now right]]). }
  destruct (getSpaceVidLen env_ (space_id req)) as [vidLen|] eqn:Hv.
  - destruct (getEdgeIndexes env_ (space_id req)) as [indexes|] eqn:Hi.
    + destruct (steps_invariant _ _ _ (map fst (parts req)) _ _ Hreach) as [Hacc [Hnum Hfin]].
      * unfold accounted. cbn. now rewrite !app_nil_r.
      * unfold counting. cbn [fst snd set_callingNum newProcessor callingNum_ inflight_
                                  finished_ List.length].
        split; [f_equal; lia|].
        destruct (parts req); [congruence|reflexivity].
      * split; [exact Hacc|].
        apply Permutation_length in Hacc. rewrite !length_app, !length_map in Hacc.
        rewrite Hfin. destruct (callingNum_ (snd c) =? 0) eqn:H0.
        -- apply Z.eqb_eq in H0. split; [split; [lia|reflexivity]|now right].
        -- apply Z.eqb_neq in H0. split; [split; [discriminate|lia]|now left].
    + apply (Hfail E_SPACE_NOT_FOUND). right. rewrite Hreach. unfold process.
      now rewrite Hv, Hi.
  - apply (Hfail E_INVALID_SPACEVIDLEN). left. rewrite Hreach. unfold process.
    now rewrite Hv.
Qed.

Lemma accounted_NoDup : forall names c,
  NoDup names -> accounted names c ->
  NoDup (map fst (codes_ (snd c))) /\
  (forall cb, In cb (inflight_ (snd c)) -> ~ In (cb_part cb) (map fst (codes_ (snd c)))).
Proof.
  intros names c Hnd Hacc. unfold accounted in Hacc.
  apply (Permutation_NoDup Hacc) in Hnd.
  apply NoDup_app_remove_l in Hnd. split.
  - now apply NoDup_app_remove_l in Hnd.
  - intros cb Hcb Hin. clear Hacc.
    induction (inflight_ (snd c)) as [|x l IH]; [destruct Hcb|].
    cbn [map app] in Hnd. inversion Hnd as [|y l' Hx Hl]; subst.
    destruct Hcb as [->|Hcb]; [|now apply IH].
    apply Hx. apply in_or_app. now right.
Qed.

Lemma NoDup_fst_unique : forall (A B : Type) (l : list (A * B)) a b b',
  NoDup (map fst l) -> In (a, b) l -> In (a, b') l -> b = b'.
Proof.
  intros A B. induction l as [|[x y] l IH]; intros a b b' Hnd H1 H2; [destruct H1|].
  cbn [map fst] in Hnd. inversion Hnd as [|z l' Hx Hl]; subst.
  destruct H1 as [H1|H1], H2 as [H2|H2].
  - congruence.
  - injection H1 as -> ->. exfalso. apply Hx. now apply (in_map fst) in H2.
  - injection H2 as -> ->. exfalso. apply Hx. now apply (in_map fst) in H1.
  - eapply IH; eassumption.
Qed.

(** A partition whose dispatch reports [code] whatever the processor state
    never has a submission in flight, and [code] is the only code it is
    ever given. *)
Lemma reporting_partition : forall spaceId vidLen indexes todo0 st0 partId edges code,
  NoDup (map fst todo0) ->
  In (partId, edges) todo0 ->
  (forall cb, In cb (inflight_ st0) -> cb_part cb <> partId) ->
  (forall code', In (partId, code') (codes_ st0) -> code' = code) ->
  (forall st, dispatchPart ku env_ spaceId vidLen indexes (partId, edges) st =
              handleAsync spaceId partId code st) ->
  forall c, steps ku env_ spaceId vidLen indexes (todo0, st0) c ->
    incl (fst c) todo0 /\
    (forall cb, In cb (inflight_ (snd c)) -> cb_part cb <> partId) /\
    (forall code', In (partId, code') (codes_ (snd c)) -> code' = code).
Proof.
  intros spaceId vidLen indexes todo0 st0 partId edges code Hnd Hin Hfl0 Hc0 Hrep c Hsteps.
  remember (todo0, st0) as c0 eqn:Hc.
  induction Hsteps as [c|c1 c2 c3 H12 IH H23]; [subst c; cbn [fst snd]; split;
    [apply incl_refl|now split]|].
  destruct (IH Hc) as [Hincl [Hfl Hcodes]]. clear IH H12.
  destruct H23 as [part todo st|todo st l1 cb l2 code1 Heq|todo st held]; cbn [fst snd] in *.
  - split; [intros x Hx; apply Hincl; now right|].
    destruct (Z.eq_dec (fst part) partId) as [He|Hne].
    + assert (part = (partId, edges)) as ->.
      { destruct part as [p e]. cbn [fst] in He. subst p. f_equal.
        eapply NoDup_fst_unique; [exact Hnd| |exact Hin].
        apply Hincl. now left. }
      rewrite Hrep. rewrite handleAsync_inflight, handleAsync_codes. split; [exact Hfl|].
      intros code' Hin'. apply in_app_or in Hin'. destruct Hin' as [Hin'|[Hin'|[]]].
      * now apply Hcodes.
      * congruence.
    + destruct (dispatchPart_footprint spaceId vidLen indexes part st)
        as [[code1 ->]|[sub [guard [held ->]]]].
      * rewrite handleAsync_inflight, handleAsync_codes. split; [exact Hfl|].
        intros code' Hin'. apply in_app_or in Hin'. destruct Hin' as [Hin'|[Hin'|[]]].
        -- now apply Hcodes.
        -- congruence.
      * cbn [set_inflight set_edgesML inflight_ codes_]. split; [|exact Hcodes].
        intros cb Hcb. apply in_app_or in Hcb. destruct Hcb as [Hcb|[<-|[]]].
        -- now apply Hfl.
        -- exact Hne.
  - split; [exact Hincl|]. unfold complete. cbn [set_edgesML inflight_ codes_].
    rewrite handleAsync_inflight, handleAsync_codes. cbn [set_inflight inflight_ codes_].
    rewrite Heq in Hfl. split.
    + intros cb0 Hcb0. apply Hfl. apply in_app_or in Hcb0. apply in_or_app.
      destruct Hcb0 as [H|H]; [now left|right; now right].
    + intros code' Hin'. apply in_app_or in Hin'. destruct Hin' as [Hin'|[Hin'|[]]].
      * now apply Hcodes.
      * injection Hin' as Hp _. exfalso. apply (Hfl cb); [|exact Hp].
        apply in_or_app. right. now left.
  - now split.
Qed.

(** The fast path as a whole: one code per partition with an invalid
    identity, one remove-only submission per other partition, and the edge
    lock untouched. *)
Lemma fast_path_fold : forall spaceId vidLen todo st,
  let valid := fun ek => isValidVidLen ku vidLen (src ek) (dst ek) in
  let st' := fold_left (fun s part => noIndexPart ku spaceId vidLen part s) todo st in
  codes_ st' =
    codes_ st ++
    flat_map (fun part : PartitionID * list EdgeKey =>
                if forallb valid (snd part) then [] else [(fst part, E_INVALID_VID)]) todo /\
  inflight_ st' =
    inflight_ st ++
    flat_map (fun part : PartitionID * list EdgeKey =>
                if forallb valid (snd part)
                then [mkPending (fst part)
                        (AsyncMultiRemove
                           (map (fun ek => edgeKey ku vidLen (fst part) (src ek) (edge_type ek)
                                                   (ranking ek) (dst ek)) (snd part)))
                        []]
                else []) todo /\
  edgesML_ st' = edgesML_ st.
Proof.
  intros spaceId vidLen. induction todo as [|[partId edges] todo IH]; intros st;
    cbn [fold_left flat_map fst snd].
  - now rewrite !app_nil_r.
  - destruct (IH (noIndexPart ku spaceId vidLen (partId, edges) st)) as [Hc [Hi He]].
    cbv zeta in *. rewrite Hc, Hi, He. rewrite noIndexPart_spec.
    destruct (forallb _ edges).
    + unfold doRemove. cbn [set_inflight codes_ inflight_ edgesML_ app].
      now rewrite <- app_assoc.
    + rewrite handleAsync_codes, handleAsync_inflight, handleAsync_edgesML.
      cbn [app]. now rewrite <- app_assoc.
Qed.

Lemma reachable_continues : forall req held c c',
  reachable ku env_ req held c -> continues ku env_ req c c' ->
  reachable ku env_ req held c'.
Proof.
  intros req held c c'. unfold reachable, continues.
  destruct (getSpaceVidLen env_ (space_id req)); [|now intros -> ->].
  destruct (getEdgeIndexes env_ (space_id req)); [|now intros -> ->].
  apply steps_trans.
Qed.

Lemma reachable_quiescence : forall req held c,
  reachable ku env_ req held c ->
  exists c', continues ku env_ req c c' /\ quiescent c'.
Proof.
  intros req held c. unfold reachable, continues, process.
  assert (Hfail : forall code st,
    inflight_ st = [] ->
    quiescent ([], onFinished (fold_left (fun s part => pushResultCode code (fst part) s)
                                         (parts req) st))).
  { intros code st Hst. split; [reflexivity|]. cbn [snd onFinished inflight_].
    destruct (push_all_codes code (parts req) st) as [_ [_ [_ [_ Hi]]]].
    cbv zeta in Hi. now rewrite Hi. }
  destruct (getSpaceVidLen env_ (space_id req)) as [vidLen|].
  - destruct (getEdgeIndexes env_ (space_id req)) as [indexes|].
    + intros _. apply run_to_quiescence.
    + intros ->. eexists. split; [reflexivity|]. now apply Hfail.
  - intros ->. eexists. split; [reflexivity|]. now apply Hfail.
Qed.

(** Once nothing is left to dispatch and nothing is in flight, only other
    requests act: the reply state of this request no longer changes. *)
Lemma idle_stays_idle : forall spaceId vidLen indexes st c,
  inflight_ st = [] ->
  steps ku env_ spaceId vidLen indexes ([], st) c ->
  fst c = [] /\ inflight_ (snd c) = [] /\
  codes_ (snd c) = codes_ st /\ finished_ (snd c) = finished_ st.
Proof.
  intros spaceId vidLen indexes st c Hfl Hsteps.
  remember ([] : list (PartitionID * list EdgeKey), st) as c0 eqn:Hc0.
  induction Hsteps as [c|c1 c2 c3 H12 IH H23]; [subst c; now repeat split|].
  destruct (IH Hc0) as [Htodo [Hi [Hc Hf]]]. clear IH H12.
  destruct H23 as [part todo st1|todo st1 l1 cb l2 code Heq|todo st1 held];
    cbn [fst snd] in *.
  - discriminate.
  - rewrite Heq in Hi. now destruct l1.
  - now repeat split.
Qed.

End ProcessFacts.

Section ProcessClaims.

Variables RowReader IndexValues ColumnDef IndexState : Type.
Variable ku : KeyUtils RowReader IndexValues ColumnDef.
Variable env_ : StorageEnv RowReader ColumnDef IndexState.

(** C7.  When the space's vertex-id length cannot be resolved, or its
    index set cannot be resolved, [process] gives every partition of the
    request the corresponding code ([E_INVALID_SPACEVIDLEN], respectively
    [E_SPACE_NOT_FOUND]), submits nothing, takes no lock and finishes the
    request before it returns. *)
Theorem C7_configuration_failure_fails_every_partition :
  forall req st,
    getSpaceVidLen env_ (space_id req) = None \/
    getEdgeIndexes env_ (space_id req) = None ->
    let code := match getSpaceVidLen env_ (space_id req) with
                | None => E_INVALID_SPACEVIDLEN
                | Some _ => E_SPACE_NOT_FOUND
                end in
    let st' := process ku env_ req st in
    codes_ st' = codes_ st ++ map (fun part => (fst part, code)) (parts req) /\
    inflight_ st' = inflight_ st /\
    edgesML_ st' = edgesML_ st /\
    finished_ st' = S (finished_ st).
Proof.
  intros req st H. unfold process.
  destruct (getSpaceVidLen env_ (space_id req)) as [vidLen|].
  - destruct H as [H|H]; [discriminate|]. rewrite H. cbv zeta.
    destruct (push_all_codes E_SPACE_NOT_FOUND (parts req)
                (set_callingNum (Z.of_nat (List.length (parts req))) st))
      as [Hc [_ [Hf [He Hi]]]].
    cbv zeta in Hc, Hf, He, Hi. cbn [onFinished codes_ inflight_ edgesML_ finished_].
    rewrite Hc, Hf, He, Hi. now repeat split.
  - cbv zeta.
    destruct (push_all_codes E_INVALID_SPACEVIDLEN (parts req) st) as [Hc [_ [Hf [He Hi]]]].
    cbv zeta in Hc, Hf, He, Hi. cbn [onFinished codes_ inflight_ edgesML_ finished_].
    rewrite Hc, Hf, He, Hi. now repeat split.
Qed.

(** C8.  On the path without indexes, a partition one of whose edges fails
    the vertex-id length check is given [E_INVALID_VID] and nothing is
    submitted for it; every other partition submits one remove-only batch
    holding the encoded key of each of its edges, with no lock guard; the
    edge lock is left as it was. *)
Theorem C8_no_index_fast_path :
  forall req st vidLen,
    getSpaceVidLen env_ (space_id req) = Some vidLen ->
    getEdgeIndexes env_ (space_id req) = Some [] ->
    let valid := fun ek => isValidVidLen ku vidLen (src ek) (dst ek) in
    (forall partId edges s,
        noIndexPart ku (space_id req) vidLen (partId, edges) s =
        if forallb valid edges
        then doRemove (space_id req) partId
               (map (fun ek => edgeKey ku vidLen partId (src ek) (edge_type ek) (ranking ek)
                                       (dst ek)) edges) s
        else handleAsync (space_id req) partId E_INVALID_VID s) /\
    let st' := process ku env_ req st in
    codes_ st' =
      codes_ st ++
      flat_map (fun part : PartitionID * list EdgeKey =>
                  if forallb valid (snd part) then [] else [(fst part, E_INVALID_VID)])
               (parts req) /\
    inflight_ st' =
      inflight_ st ++
      flat_map (fun part : PartitionID * list EdgeKey =>
                  if forallb valid (snd part)
                  then [mkPending (fst part)
                          (AsyncMultiRemove
                             (map (fun ek => edgeKey ku vidLen (fst part) (src ek)
                                                     (edge_type ek) (ranking ek) (dst ek))
                                  (snd part)))
                          []]
                  else [])
               (parts req) /\
    edgesML_ st' = edgesML_ st.
Proof.
  intros req st vidLen Hv Hi valid. split.
  - intros partId edges s. apply noIndexPart_spec.
  - unfold process. rewrite Hv, Hi. cbv zeta.
    exact (fast_path_fold _ _ _ ku (space_id req) vidLen (parts req)
             (set_callingNum (Z.of_nat (List.length (parts req))) st)).
Qed.

(** X10.  For a request that names at least one partition: in every
    configuration the request can reach (configuration failure, or any
    interleaving of dispatching, completions and other requests' locking),
    each partition of the request is in exactly one place: not dispatched
    yet, in flight, or reported with one code; no partition has two codes;
    the request is finished exactly when as many codes were reported as
    the request has partitions, and it is finished at most once.  The
    state [process] returns is such a configuration, and every
    configuration can run on to one where every partition has its code and
    the request is finished. *)
Theorem X10_every_partition_reports_once :
  forall req held c,
    parts req <> [] ->
    NoDup (map fst (parts req)) ->
    reachable ku env_ req held c ->
    accounted (map fst (parts req)) c /\
    NoDup (map fst (codes_ (snd c))) /\
    (finished_ (snd c) = 1%nat <->
     List.length (codes_ (snd c)) = List.length (parts req)) /\
    (finished_ (snd c) = 0%nat \/ finished_ (snd c) = 1%nat) /\
    reachable ku env_ req held ([], process ku env_ req (newProcessor held)) /\
    exists c',
      continues ku env_ req c c' /\ quiescent c' /\
      Permutation (map fst (parts req)) (map fst (codes_ (snd c'))) /\
      finished_ (snd c') = 1%nat.
Proof.
  intros req held c Hne Hnd Hreach.
  destruct (reachable_invariant _ _ _ _ ku env_ req held c Hne Hreach) as [Hacc [Hfin Hle]].
  split; [exact Hacc|]. split; [exact (proj1 (accounted_NoDup _ _ Hnd Hacc))|].
  split; [exact Hfin|]. split; [exact Hle|]. split; [apply process_reachable|].
  destruct (reachable_quiescence _ _ _ _ ku env_ req held c Hreach) as [c' [Hrun [Htodo Hfl]]].
  exists c'. split; [exact Hrun|]. split; [now split|].
  pose proof (reachable_continues _ _ _ _ ku env_ req held c c' Hreach Hrun) as Hreach'.
  destruct (reachable_invariant _ _ _ _ ku env_ req held c' Hne Hreach') as [Hacc' [Hfin' _]].
  unfold accounted in Hacc'. rewrite Htodo, Hfl in Hacc'. cbn [map app] in Hacc'.
  split; [exact Hacc'|].
  apply Hfin'. apply Permutation_length in Hacc'. rewrite !length_map in Hacc'. lia.
Qed.

(** C4.  When the indexes of a partition are locked and the construction
    of its batch gets to an edge with a stored record, a decodable value
    and an index of its type whose values are extracted, then
    [deleteEdges] fails with [E_DATA_CONFLICT_ERROR], dispatching the
    partition only reports that code, and in every configuration the
    request reaches no submission of that partition is in flight, so the
    store receives no write for it; the code it is given is the conflict
    code, and it has been given when [process] returns. *)
Theorem C4_locked_index_aborts_partition :
  forall req held vidLen indexes partId pre edge post before iter k v rest r index values,
    getSpaceVidLen env_ (space_id req) = Some vidLen ->
    getEdgeIndexes env_ (space_id req) = Some indexes ->
    NoDup (map fst (parts req)) ->
    In (partId, pre ++ edge :: post) (parts req) ->
    lifecycle env_ (getIndexState env_ (space_id req) partId) = Locked ->
    deleteEdgesLoop ku env_ (space_id req) vidLen indexes partId pre [] = inr before ->
    kv_prefix env_ (space_id req) partId
              (edgePrefix ku vidLen partId (src edge) (edge_type edge) (ranking edge)
                          (dst edge)) = (SUCCEEDED, iter) ->
    dropWhile (fun kv => isLock ku vidLen (fst kv)) iter = (k, v) :: rest ->
    isEdge ku vidLen k = true ->
    getEdgePropReader env_ (space_id req) (edge_type edge) v = Some r ->
    In index indexes ->
    edge_type edge = schema_edge_type index ->
    collectIndexValues ku r (fields index) = Some values ->
    deleteEdges ku env_ (space_id req) vidLen indexes partId (pre ++ edge :: post) =
      inl E_DATA_CONFLICT_ERROR /\
    (forall st,
        indexPart ku env_ (space_id req) vidLen indexes (partId, pre ++ edge :: post) st =
        handleAsync (space_id req) partId E_DATA_CONFLICT_ERROR st) /\
    (forall c, reachable ku env_ req held c ->
               (forall cb, In cb (inflight_ (snd c)) -> cb_part cb <> partId) /\
               (forall code, In (partId, code) (codes_ (snd c)) ->
                             code = E_DATA_CONFLICT_ERROR)) /\
    In (partId, E_DATA_CONFLICT_ERROR) (codes_ (process ku env_ req (newProcessor held))).
Proof.
  intros req held vidLen indexes partId pre edge post before iter k v rest r index values
         Hv Hi Hnd Hpart Hlocked Hpre Hscan Hdrop Hk Hr Hin Hty Hval.
  assert (Hbuild :
    deleteEdges ku env_ (space_id req) vidLen indexes partId (pre ++ edge :: post) =
    inl E_DATA_CONFLICT_ERROR).
  { eapply locked_edge_conflict; eassumption. }
  assert (Hdisp : forall st,
    indexPart ku env_ (space_id req) vidLen indexes (partId, pre ++ edge :: post) st =
    handleAsync (space_id req) partId E_DATA_CONFLICT_ERROR st).
  { intros st. unfold indexPart. cbn [fst snd]. now rewrite Hbuild. }
  assert (Hall : forall c, reachable ku env_ req held c ->
    (forall cb, In cb (inflight_ (snd c)) -> cb_part cb <> partId) /\
    (forall code, In (partId, code) (codes_ (snd c)) -> code = E_DATA_CONFLICT_ERROR)).
  { intros c Hreach. unfold reachable in Hreach. rewrite Hv, Hi in Hreach.
    eapply (reporting_partition _ _ _ _ ku env_ (space_id req) vidLen indexes (parts req) _ partId
              (pre ++ edge :: post) E_DATA_CONFLICT_ERROR Hnd Hpart); [| | |exact Hreach].
    - intros cb [].
    - intros code [].
    - intros st. unfold dispatchPart. destruct indexes; [destruct Hin|apply Hdisp]. }
  split; [exact Hbuild|]. split; [exact Hdisp|]. split; [exact Hall|].
  assert (Hne : parts req <> []) by (intros E; rewrite E in Hpart; destruct Hpart).
  pose proof (process_reachable _ _ _ _ ku env_ req held) as Hreach.
  destruct (reachable_invariant _ _ _ _ ku env_ req held _ Hne Hreach) as [Hacc _].
  destruct (Hall _ Hreach) as [Hfl Hcodes].
  unfold accounted in Hacc. cbn [fst snd map app] in Hacc.
  assert (Hp : In partId (map fst (parts req))) by (apply (in_map fst) in Hpart; exact Hpart).
  apply (Permutation_in _ Hacc) in Hp. apply in_app_or in Hp. destruct Hp as [Hp|Hp].
  - apply in_map_iff in Hp. destruct Hp as [cb [Hcb Hincb]]. now apply Hfl in Hincb.
  - apply in_map_iff in Hp. destruct Hp as [[p code] [Hp Hinp]]. cbn [fst] in Hp. subst p.
    now rewrite <- (Hcodes _ Hinp).
Qed.

End ProcessClaims.

(** ** The sample runs *)

Section Scenarios.

Local Open Scope string_scope.

(** C1.  On the index-aware path the vertex-id lengths are not checked.
    With vertex-id length 8 and one index, a partition whose only edge has
    a source id of 4 bytes (which the check rejects) gets a batch built
    and submitted instead of [E_INVALID_VID]; the same request on the path
    without indexes is given [E_INVALID_VID]. *)
Theorem C1_index_path_skips_vid_length_check :
  let envIdx := Sample.env (Some 8) (Some [Sample.idxName]) Sample.storeShort Normal in
  let envNoIdx := Sample.env (Some 8) (Some []) Sample.storeShort Normal in
  isValidVidLen Sample.keyUtils Sample.vid8 (src Sample.edgeShort) (dst Sample.edgeShort) = false /\
  deleteEdges Sample.keyUtils envIdx 1 Sample.vid8 [Sample.idxName] 1 [Sample.edgeShort] =
    inr "R[i/1/11/name=row9/AAAA/0/BBBBBBBB]R[e/1/AAAA/1/0/BBBBBBBB/v]" /\
  process Sample.keyUtils envIdx Sample.reqShort (newProcessor []) =
    mkProcessor [] 1 0 [(1, 1, "AAAA", 1, 0, "BBBBBBBB")]
      [mkPending 1
         (AsyncAppendBatch "R[i/1/11/name=row9/AAAA/0/BBBBBBBB]R[e/1/AAAA/1/0/BBBBBBBB/v]")
         [(1, 1, "AAAA", 1, 0, "BBBBBBBB")]] /\
  process Sample.keyUtils envNoIdx Sample.reqShort (newProcessor []) =
    mkProcessor [(1, E_INVALID_VID)] 0 1 [] [].
Proof. vm_compute. repeat split. Qed.

(** C9.  The code at the failing input: for a request without partitions
    whose configuration resolves, no outcome is reported, which is as many
    as the request has partitions, yet the request is not finished,
    nothing is in flight, and no configuration it reaches is finished
    (both configuration-failure branches do finish such a request). *)
Lemma C9_empty_request_never_finishes :
  let envOK := Sample.env (Some 8) (Some Sample.indexes3) Sample.storeAB Normal in
  let st := process Sample.keyUtils envOK Sample.reqEmpty (newProcessor []) in
  List.length (codes_ st) = List.length (parts Sample.reqEmpty) /\
  finished_ st = 0%nat /\
  inflight_ st = [] /\
  (forall c, reachable Sample.keyUtils envOK Sample.reqEmpty [] c -> finished_ (snd c) = 0%nat).
Proof.
  cbv zeta. repeat split.
  intros c Hreach. unfold reachable in Hreach. cbn in Hreach.
  apply idle_stays_idle in Hreach; [|reflexivity].
  destruct Hreach as [_ [_ [_ Hf]]]. exact Hf.
Qed.

Lemma C4_locked_index_aborts_partition_witness :
  lifecycle Sample.envLocked (getIndexState Sample.envLocked 1 1) = Locked /\
  deleteEdges Sample.keyUtils Sample.envLocked 1 Sample.vid8 Sample.indexes3 1
              [Sample.edgeAB] = inl E_DATA_CONFLICT_ERROR /\
  In (1, E_DATA_CONFLICT_ERROR)
     (codes_ (process Sample.keyUtils Sample.envLocked Sample.reqTwo (newProcessor []))) /\
  (forall cb,
      In cb (inflight_ (process Sample.keyUtils Sample.envLocked Sample.reqTwo
                                (newProcessor []))) ->
      cb_part cb <> 1).
Proof.
  assert (Hnd : NoDup (map fst (parts Sample.reqTwo))).
  { repeat constructor; cbn; intuition discriminate. }
  destruct (C4_locked_index_aborts_partition _ _ _ _ Sample.keyUtils Sample.envLocked
              Sample.reqTwo [] 8 Sample.indexes3 1 [] Sample.edgeAB [] []
              Sample.storeAB Sample.recordAB "row1" [Sample.staleAB] "row1"
              Sample.idxName "name=row1"
              eq_refl eq_refl Hnd (or_introl eq_refl) eq_refl eq_refl eq_refl eq_refl
              eq_refl eq_refl (or_introl eq_refl) eq_refl eq_refl)
    as (Hbuild & _ & Hall & Hcode).
  split; [reflexivity|]. split; [exact Hbuild|]. split; [exact Hcode|].
  exact (proj1 (Hall _ (process_reachable _ _ _ _ Sample.keyUtils Sample.envLocked
                          Sample.reqTwo []))).
Defined.

Lemma C5_rebuilding_defers_index_deletion_witness :
  checkRebuilding Sample.envRebuilding (getIndexState Sample.envRebuilding 1 1) = true /\
  exists batch,
    deleteEdges Sample.keyUtils Sample.envRebuilding 1 Sample.vid8 Sample.indexes3 1
                [Sample.edgeAB; Sample.edgeCD] =
    inr (encodeBatchValue Sample.keyUtils batch) /\
    In (OP_BATCH_PUT "o/1/delete" Sample.indexKeyAB) batch /\
    ~ In (OP_BATCH_REMOVE Sample.indexKeyAB) batch.
Proof.
  split; [reflexivity|].
  destruct (C5_rebuilding_defers_index_deletion _ _ _ _ Sample.keyUtils Sample.envRebuilding
              1 Sample.vid8 Sample.indexes3 1 [] Sample.edgeAB [Sample.edgeCD] _
              Sample.recordAB "row1" [Sample.staleAB] "row1" Sample.idxName "name=row1"
              eq_refl eq_refl eq_refl eq_refl eq_refl (or_introl eq_refl) eq_refl eq_refl)
    as (batch & Hpay & Hput & _ & Hsep).
  exists batch. split; [exact (f_equal (@inr ErrorCode string) Hpay)|].
  split; [exact Hput|].
  apply Hsep. intros e [<-|[<-|[]]]; vm_compute; intuition discriminate.
Defined.

Lemma C7_configuration_failure_fails_every_partition_witness :
  getSpaceVidLen Sample.envNoVidLen (space_id Sample.reqTwo) = None /\
  codes_ (process Sample.keyUtils Sample.envNoVidLen Sample.reqTwo (newProcessor [])) =
    [(1, E_INVALID_SPACEVIDLEN); (2, E_INVALID_SPACEVIDLEN)] /\
  inflight_ (process Sample.keyUtils Sample.envNoVidLen Sample.reqTwo (newProcessor [])) = [] /\
  edgesML_ (process Sample.keyUtils Sample.envNoVidLen Sample.reqTwo (newProcessor [])) = [] /\
  finished_ (process Sample.keyUtils Sample.envNoVidLen Sample.reqTwo (newProcessor [])) = 1%nat.
Proof.
  split; [reflexivity|].
  exact (C7_configuration_failure_fails_every_partition _ _ _ _ Sample.keyUtils
           Sample.envNoVidLen Sample.reqTwo (newProcessor []) (or_introl eq_refl)).
Defined.

Lemma C8_no_index_fast_path_witness :
  getEdgeIndexes Sample.envNoIndex (space_id Sample.reqTwo) = Some [] /\
  codes_ (process Sample.keyUtils Sample.envNoIndex Sample.reqTwo (newProcessor [])) =
    [(2, E_INVALID_VID)] /\
  inflight_ (process Sample.keyUtils Sample.envNoIndex Sample.reqTwo (newProcessor [])) =
    [mkPending 1 (AsyncMultiRemove [Sample.recordAB]) []] /\
  edgesML_ (process Sample.keyUtils Sample.envNoIndex Sample.reqTwo (newProcessor [])) = [].
Proof.
  split; [reflexivity|].
  exact (proj2 (C8_no_index_fast_path _ _ _ _ Sample.keyUtils Sample.envNoIndex
                  Sample.reqTwo (newProcessor []) 8 eq_refl eq_refl)).
Defined.

Lemma X10_every_partition_reports_once_witness :
  parts Sample.reqTwo <> [] /\
  NoDup (map fst (parts Sample.reqTwo)) /\
  (finished_ (process Sample.keyUtils Sample.envNormal Sample.reqTwo (newProcessor [])) = 1%nat
   <-> List.length (codes_ (process Sample.keyUtils Sample.envNormal Sample.reqTwo
                                    (newProcessor []))) = 2%nat) /\
  exists c',
    continues Sample.keyUtils Sample.envNormal Sample.reqTwo
              ([], process Sample.keyUtils Sample.envNormal Sample.reqTwo (newProcessor [])) c' /\
    Permutation [1; 2] (map fst (codes_ (snd c'))) /\
    finished_ (snd c') = 1%nat.
Proof.
  assert (Hne : parts Sample.reqTwo <> []) by discriminate.
  assert (Hnd : NoDup (map fst (parts Sample.reqTwo))).
  { repeat constructor; cbn; intuition discriminate. }
  split; [exact Hne|]. split; [exact Hnd|].
  destruct (X10_every_partition_reports_once _ _ _ _ Sample.keyUtils Sample.envNormal
              Sample.reqTwo [] _ Hne Hnd
              (process_reachable _ _ _ _ Sample.keyUtils Sample.envNormal Sample.reqTwo []))
    as (_ & _ & Hfin & _ & _ & c' & Hrun & _ & Hperm & Hdone).
  split; [exact Hfin|]. exists c'. now repeat split.
Defined.

End Scenarios.

(** * Further properties of the builder *)

Section BuilderMore.

Variables RowReader IndexValues ColumnDef IndexState : Type.
Variable ku : KeyUtils RowReader IndexValues ColumnDef.
Variable env_ : StorageEnv RowReader ColumnDef IndexState.
Variable spaceId : GraphSpaceID.
Variable vidLen : Z.

Lemma orderedEdgeOps_nil : forall (L E : Key -> bool) iter,
  orderedEdgeOps L E iter [] = map removeOf iter.
Proof.
  intros L E iter. unfold orderedEdgeOps.
  rewrite <- (takeWhile_dropWhile _ (fun kv => L (fst kv)) iter) at 3.
  rewrite map_app. f_equal.
  destruct (dropWhile (fun kv => L (fst kv)) iter) as [|[k v] rest]; [reflexivity|].
  now destruct (E k).
Qed.

Lemma orderedEdgeOps_covers : forall (L E : Key -> bool) iter indexOps kv,
  In kv iter -> In (removeOf kv) (orderedEdgeOps L E iter indexOps).
Proof.
  intros L E iter indexOps kv Hin. unfold orderedEdgeOps.
  rewrite <- (takeWhile_dropWhile _ (fun kv => L (fst kv)) iter) in Hin.
  apply in_app_or in Hin. apply in_or_app. destruct Hin as [Hin|Hin].
  - left. now apply in_map.
  - right. destruct (dropWhile (fun kv => L (fst kv)) iter) as [|[k v] rest]; [destruct Hin|].
    destruct (E k); [|now apply in_map].
    apply in_or_app. right. destruct Hin as [<-|Hin]; [now left|right; now apply in_map].
Qed.

(** The errors of the per-index loop. *)
Lemma indexLoop_inl : forall partId type srcId rank dstId val idxs reader b e,
  indexLoop ku env_ spaceId vidLen partId type srcId rank dstId val reader idxs b = inl e ->
  (e = E_INVALID_DATA /\ reader = None /\ getEdgePropReader env_ spaceId type val = None) \/
  (e = E_DATA_CONFLICT_ERROR /\ lifecycle env_ (getIndexState env_ spaceId partId) = Locked).
Proof.
  intros partId type srcId rank dstId val. unfold lifecycle.
  induction idxs as [|index rest IH]; intros reader b e H; cbn [indexLoop] in H; [discriminate|].
  destruct (type =? schema_edge_type index); [|now apply IH in H].
  destruct reader as [r|].
  - destruct (collectIndexValues ku r (fields index)).
    + destruct (checkRebuilding env_ (getIndexState env_ spaceId partId)).
      * apply IH in H. destruct H as [[_ [H _]]|H]; [discriminate|now right].
      * destruct (checkIndexLocked env_ (getIndexState env_ spaceId partId)).
        -- injection H as <-. now right.
        -- apply IH in H. destruct H as [[_ [H _]]|H]; [discriminate|now right].
    + apply IH in H. destruct H as [[_ [H _]]|H]; [discriminate|now right].
  - destruct (getEdgePropReader env_ spaceId type val) as [r|] eqn:Hr.
    + destruct (collectIndexValues ku r (fields index)).
      * destruct (checkRebuilding env_ (getIndexState env_ spaceId partId)).
        -- apply IH in H. destruct H as [[_ [H _]]|H]; [discriminate|now right].
        -- destruct (checkIndexLocked env_ (getIndexState env_ spaceId partId)).
           ++ injection H as <-. now right.
           ++ apply IH in H. destruct H as [[_ [H _]]|H]; [discriminate|now right].
      * apply IH in H. destruct H as [[_ [H _]]|H]; [discriminate|now right].
    + injection H as <-. now left.
Qed.

(** The per-index loop does nothing when no index is on the edge's type. *)
Lemma indexLoop_no_type : forall partId type srcId rank dstId val idxs reader b,
  (forall index, In index idxs -> (type =? schema_edge_type index) = false) ->
  indexLoop ku env_ spaceId vidLen partId type srcId rank dstId val reader idxs b = inr b.
Proof.
  intros partId type srcId rank dstId val.
  induction idxs as [|index rest IH]; intros reader b H; cbn [indexLoop]; [reflexivity|].
  rewrite (H index (or_introl eq_refl)). apply IH. intros i Hi. apply H. now right.
Qed.

(** An undecodable record fails the loop as soon as an index is on the
    edge's type. *)
Lemma indexLoop_undecodable : forall partId type srcId rank dstId val idxs b index,
  getEdgePropReader env_ spaceId type val = None ->
  In index idxs -> type = schema_edge_type index ->
  indexLoop ku env_ spaceId vidLen partId type srcId rank dstId val None idxs b =
  inl E_INVALID_DATA.
Proof.
  intros partId type srcId rank dstId val idxs b index Hr. revert b.
  induction idxs as [|i rest IH]; intros b Hin Hty; [destruct Hin|]. cbn [indexLoop].
  destruct (type =? schema_edge_type i) eqn:Hi.
  - now rewrite Hr.
  - destruct Hin as [->|Hin]; [|now apply IH].
    rewrite Hty, Z.eqb_refl in Hi. discriminate.
Qed.

(** What one edge does to the batch holder, from the scan result. *)
Lemma deleteEdge_unfold : forall indexes partId edge b ret iter,
  kv_prefix env_ spaceId partId
            (edgePrefix ku vidLen partId (src edge) (edge_type edge) (ranking edge) (dst edge))
  = (ret, iter) ->
  deleteEdge ku env_ spaceId vidLen indexes partId edge b =
  if ErrorCode_eqb ret SUCCEEDED then
    match dropWhile (fun kv => isLock ku vidLen (fst kv)) iter with
    | (k, v) :: rest =>
        if isEdge ku vidLen k then
          ops <-! indexLoop ku env_ spaceId vidLen partId (edge_type edge) (src edge)
                            (ranking edge) (dst edge) v None indexes [] ;;
          inr (b ++ orderedEdgeOps (isLock ku vidLen) (isEdge ku vidLen) iter ops)
        else inr (b ++ map removeOf iter)
    | [] => inr (b ++ map removeOf iter)
    end
  else inl ret.
Proof.
  intros indexes partId edge b ret iter Hscan. unfold deleteEdge. rewrite Hscan.
  destruct (ErrorCode_eqb ret SUCCEEDED); [|reflexivity].
  rewrite removeLocks_spec.
  pose proof (takeWhile_dropWhile _ (fun kv => isLock ku vidLen (fst kv)) iter) as Hsplit.
  unfold orderedEdgeOps.
  destruct (dropWhile (fun kv => isLock ku vidLen (fst kv)) iter) as [|[k v] rest];
    cbn [removeRecord bindE removeRest].
  - rewrite <- Hsplit at 2. now rewrite app_nil_r.
  - destruct (isEdge ku vidLen k).
    + rewrite indexLoop_batch.
      destruct (indexLoop ku env_ spaceId vidLen partId (edge_type edge) (src edge)
                          (ranking edge) (dst edge) v None indexes []); cbn [bindE];
        [reflexivity|].
      rewrite removeRest_spec. unfold bh_remove. now rewrite <- !app_assoc.
    + cbn [bindE]. rewrite removeRest_spec. rewrite <- Hsplit at 2.
      rewrite map_app. now rewrite <- !app_assoc.
Qed.

(** Unless the partition's indexes are rebuilding, a built batch holds
    removals only. *)
Lemma not_rebuilding_removes_only : forall indexes partId,
  checkRebuilding env_ (getIndexState env_ spaceId partId) = false ->
  forall edges b b',
    deleteEdgesLoop ku env_ spaceId vidLen indexes partId edges b = inr b' ->
    forallb isRemove b = true -> forallb isRemove b' = true.
Proof.
  intros indexes partId Hreb. induction edges as [|edge rest IH]; intros b b' H Hb.
  - cbn in H. now injection H as <-.
  - cbn [deleteEdgesLoop] in H.
    destruct (deleteEdge ku env_ spaceId vidLen indexes partId edge b) as [e|b1] eqn:Hedge;
      cbn [bindE] in H; [discriminate|].
    apply (IH _ _ H). apply deleteEdge_inr in Hedge.
    destruct Hedge as [_ [indexOps [-> Hidx]]].
    rewrite forallb_app, Hb. cbn [andb]. unfold orderedEdgeOps. rewrite forallb_app.
    apply andb_true_intro. split.
    + apply forallb_forall. intros op Hop. apply in_map_iff in Hop.
      now destruct Hop as [kv [<- _]].
    + destruct (dropWhile (fun kv => isLock ku vidLen (fst kv)) _) as [|[k v] rest'] eqn:Hdrop;
        [reflexivity|].
      assert (Hrest : forall l : list (Key * Val), forallb isRemove (map removeOf l) = true).
      { intros l. apply forallb_forall. intros op Hop. apply in_map_iff in Hop.
        now destruct Hop as [kv [<- _]]. }
      destruct (isEdge ku vidLen k) eqn:Hk; [|apply (Hrest ((k, v) :: rest'))].
      specialize (Hidx _ _ _ eq_refl Hk). apply indexLoop_uniform in Hidx.
      rewrite Hreb in Hidx. rewrite forallb_app, Hidx. cbn [andb forallb isRemove].
      apply Hrest.
Qed.

End BuilderMore.

Section BuilderExtras.

Variables RowReader IndexValues ColumnDef IndexState : Type.
Variable ku : KeyUtils RowReader IndexValues ColumnDef.
Variable env_ : StorageEnv RowReader ColumnDef IndexState.

(** X1.  When the indexes of the partition are neither rebuilding nor
    locked and the batch of the partition is built, then for every edge
    with a stored record and every index of its type whose values are
    extracted, the batch holds the direct removal of the index key, and
    the batch holds removals only (no deferred-deletion entry). *)
Theorem X1_normal_removes_index_key :
  forall spaceId vidLen indexes partId pre edge post payload k v rest r index values,
    lifecycle env_ (getIndexState env_ spaceId partId) = Normal ->
    deleteEdges ku env_ spaceId vidLen indexes partId (pre ++ edge :: post) = inr payload ->
    dropWhile (fun kv => isLock ku vidLen (fst kv))
              (snd (kv_prefix env_ spaceId partId
                      (edgePrefix ku vidLen partId (src edge) (edge_type edge)
                                  (ranking edge) (dst edge)))) = (k, v) :: rest ->
    isEdge ku vidLen k = true ->
    getEdgePropReader env_ spaceId (edge_type edge) v = Some r ->
    In index indexes ->
    edge_type edge = schema_edge_type index ->
    collectIndexValues ku r (fields index) = Some values ->
    exists batch,
      payload = encodeBatchValue ku batch /\
      In (OP_BATCH_REMOVE
            (edgeIndexKey ku vidLen partId (index_id index) (src edge) (ranking edge)
                          (dst edge) values)) batch /\
      forallb isRemove batch = true.
Proof.
  intros spaceId vidLen indexes partId pre edge post payload k v rest r index values
         Hnormal H Hdrop Hk Hr Hin Hty Hval.
  unfold deleteEdges in H.
  destruct (deleteEdgesLoop ku env_ spaceId vidLen indexes partId (pre ++ edge :: post) [])
    as [e|batch] eqn:Hloop; cbn [bindE] in H; [discriminate|].
  injection H as <-. exists batch. split; [reflexivity|].
  assert (Hreb : checkRebuilding env_ (getIndexState env_ spaceId partId) = false).
  { unfold lifecycle in Hnormal.
    now destruct (checkRebuilding env_ (getIndexState env_ spaceId partId)). }
  split.
  - destruct (deleteEdgesLoop_edge _ _ _ _ _ _ _ _ _ _ _ _ _ _ Hloop)
      as [before [indexOps [after [_ [-> Hidx]]]]].
    specialize (Hidx _ _ _ Hdrop Hk).
    erewrite indexLoop_reader in Hidx by exact Hr.
    rewrite indexLoop_decoded, Hnormal in Hidx. injection Hidx as <-.
    apply in_or_app. right. apply in_or_app. left.
    unfold orderedEdgeOps. apply in_or_app. right. rewrite Hdrop, Hk.
    apply in_or_app. left. apply in_map. now apply indexKeys_In.
  - eapply not_rebuilding_removes_only; [exact Hreb|exact Hloop|reflexivity].
Qed.

(** X2.  When the prefix scan of an edge returns a code other than
    [SUCCEEDED] and the edges before it were built, [deleteEdges] returns
    that very code, whatever edges follow, and dispatching the partition
    only reports that code. *)
Theorem X2_scan_error_is_returned :
  forall spaceId vidLen indexes partId pre edge post before ret iter,
    deleteEdgesLoop ku env_ spaceId vidLen indexes partId pre [] = inr before ->
    kv_prefix env_ spaceId partId
              (edgePrefix ku vidLen partId (src edge) (edge_type edge) (ranking edge)
                          (dst edge)) = (ret, iter) ->
    ret <> SUCCEEDED ->
    deleteEdges ku env_ spaceId vidLen indexes partId (pre ++ edge :: post) = inl ret /\
    (forall st,
        indexPart ku env_ spaceId vidLen indexes (partId, pre ++ edge :: post) st =
        handleAsync spaceId partId ret st).
Proof.
  intros spaceId vidLen indexes partId pre edge post before ret iter Hpre Hscan Hret.
  assert (H : deleteEdges ku env_ spaceId vidLen indexes partId (pre ++ edge :: post) = inl ret).
  { unfold deleteEdges. rewrite deleteEdgesLoop_app, Hpre. cbn [bindE deleteEdgesLoop].
    rewrite (deleteEdge_unfold _ _ _ _ ku env_ spaceId vidLen indexes partId edge before
               ret iter Hscan).
    unfold ErrorCode_eqb. now destruct (ErrorCode_eq_dec ret SUCCEEDED). }
  split; [exact H|]. intros st. unfold indexPart. cbn [fst snd]. now rewrite H.
Qed.

(** X3.  When the stored record of an edge does not decode and some index
    is on the edge's type, [deleteEdges] fails with [E_INVALID_DATA],
    whatever the state of the partition's indexes, and dispatching the
    partition only reports that code. *)
Theorem X3_undecodable_record_fails_partition :
  forall spaceId vidLen indexes partId pre edge post before iter k v rest index,
    deleteEdgesLoop ku env_ spaceId vidLen indexes partId pre [] = inr before ->
    kv_prefix env_ spaceId partId
              (edgePrefix ku vidLen partId (src edge) (edge_type edge) (ranking edge)
                          (dst edge)) = (SUCCEEDED, iter) ->
    dropWhile (fun kv => isLock ku vidLen (fst kv)) iter = (k, v) :: rest ->
    isEdge ku vidLen k = true ->
    getEdgePropReader env_ spaceId (edge_type edge) v = None ->
    In index indexes ->
    edge_type edge = schema_edge_type index ->
    deleteEdges ku env_ spaceId vidLen indexes partId (pre ++ edge :: post) =
      inl E_INVALID_DATA /\
    (forall st,
        indexPart ku env_ spaceId vidLen indexes (partId, pre ++ edge :: post) st =
        handleAsync spaceId partId E_INVALID_DATA st).
Proof.
  intros spaceId vidLen indexes partId pre edge post before iter k v rest index
         Hpre Hscan Hdrop Hk Hr Hin Hty.
  assert (H : deleteEdges ku env_ spaceId vidLen indexes partId (pre ++ edge :: post) =
              inl E_INVALID_DATA).
  { unfold deleteEdges. rewrite deleteEdgesLoop_app, Hpre. cbn [bindE deleteEdgesLoop].
    rewrite (deleteEdge_unfold _ _ _ _ ku env_ spaceId vidLen indexes partId edge before
               SUCCEEDED iter Hscan).
    cbn [ErrorCode_eqb]. destruct (ErrorCode_eq_dec SUCCEEDED SUCCEEDED); [|congruence].
    rewrite Hdrop, Hk.
    now rewrite (indexLoop_undecodable _ _ _ _ ku env_ spaceId vidLen partId _ _ _ _ v
                   indexes [] index Hr Hin Hty). }
  split; [exact H|]. intros st. unfold indexPart. cbn [fst snd]. now rewrite H.
Qed.

(** X4.  When the scan of an edge succeeds and either no edge record
    follows the leading locks or no index is on the edge's type, the edge
    contributes exactly one removal per scanned key, in scan order; the
    record is not decoded and the state of the indexes is not consulted,
    so neither an undecodable value nor locked indexes fail it. *)
Theorem X4_plain_removal_without_index_entry :
  forall spaceId vidLen indexes partId edge b iter,
    kv_prefix env_ spaceId partId
              (edgePrefix ku vidLen partId (src edge) (edge_type edge) (ranking edge)
                          (dst edge)) = (SUCCEEDED, iter) ->
    match dropWhile (fun kv => isLock ku vidLen (fst kv)) iter with
    | (k, _) :: _ => isEdge ku vidLen k = false
    | [] => True
    end \/
    (forall index, In index indexes -> edge_type edge <> schema_edge_type index) ->
    deleteEdge ku env_ spaceId vidLen indexes partId edge b = inr (b ++ map removeOf iter).
Proof.
  intros spaceId vidLen indexes partId edge b iter Hscan H.
  rewrite (deleteEdge_unfold _ _ _ _ ku env_ spaceId vidLen indexes partId edge b
             SUCCEEDED iter Hscan).
  cbn [ErrorCode_eqb]. destruct (ErrorCode_eq_dec SUCCEEDED SUCCEEDED); [|congruence].
  destruct (dropWhile (fun kv => isLock ku vidLen (fst kv)) iter) as [|[k v] rest] eqn:Hdrop;
    [reflexivity|].
  destruct (isEdge ku vidLen k) eqn:Hk; [|reflexivity].
  destruct H as [H|H]; [discriminate|].
  rewrite indexLoop_no_type.
  - cbn [bindE]. now rewrite orderedEdgeOps_nil.
  - intros index Hin. apply Z.eqb_neq. now apply H.
Qed.

(** X5.  Every error of [deleteEdges] has one of three causes at some edge
    of the partition: the code of a failed prefix scan, [E_INVALID_DATA]
    for a scanned edge record that does not decode, or
    [E_DATA_CONFLICT_ERROR] while the partition's indexes are locked.  In
    particular the error is never [SUCCEEDED]. *)
Theorem X5_builder_error_causes :
  forall spaceId vidLen indexes partId edges e,
    deleteEdges ku env_ spaceId vidLen indexes partId edges = inl e ->
    e <> SUCCEEDED /\
    exists edge,
      In edge edges /\
      let scan := kv_prefix env_ spaceId partId
                    (edgePrefix ku vidLen partId (src edge) (edge_type edge)
                                (ranking edge) (dst edge)) in
      (fst scan = e /\ e <> SUCCEEDED) \/
      (e = E_INVALID_DATA /\
       exists k v, In (k, v) (snd scan) /\ isEdge ku vidLen k = true /\
                   getEdgePropReader env_ spaceId (edge_type edge) v = None) \/
      (e = E_DATA_CONFLICT_ERROR /\
       lifecycle env_ (getIndexState env_ spaceId partId) = Locked).
Proof.
  intros spaceId vidLen indexes partId edges e H. unfold deleteEdges in H.
  destruct (deleteEdgesLoop ku env_ spaceId vidLen indexes partId edges []) as [e'|b] eqn:Hloop;
    cbn [bindE] in H; [|discriminate].
  injection H as ->.
  assert (Hcause : exists edge,
    In edge edges /\
    let scan := kv_prefix env_ spaceId partId
                  (edgePrefix ku vidLen partId (src edge) (edge_type edge)
                              (ranking edge) (dst edge)) in
    (fst scan = e /\ e <> SUCCEEDED) \/
    (e = E_INVALID_DATA /\
     exists k v, In (k, v) (snd scan) /\ isEdge ku vidLen k = true /\
                 getEdgePropReader env_ spaceId (edge_type edge) v = None) \/
    (e = E_DATA_CONFLICT_ERROR /\
     lifecycle env_ (getIndexState env_ spaceId partId) = Locked)).
  { revert Hloop. generalize (@nil BatchOp).
    induction edges as [|edge rest IH]; intros b Hloop; cbn [deleteEdgesLoop] in Hloop;
      [discriminate|].
    destruct (deleteEdge ku env_ spaceId vidLen indexes partId edge b) as [e1|b1] eqn:Hedge;
      cbn [bindE] in Hloop.
    - injection Hloop as ->. exists edge. split; [now left|].
      destruct (kv_prefix env_ spaceId partId
                  (edgePrefix ku vidLen partId (src edge) (edge_type edge) (ranking edge)
                              (dst edge))) as [ret iter] eqn:Hscan.
      rewrite (deleteEdge_unfold _ _ _ _ ku env_ spaceId vidLen indexes partId edge b
                 ret iter Hscan) in Hedge.
      cbn [fst snd]. unfold ErrorCode_eqb in Hedge.
      destruct (ErrorCode_eq_dec ret SUCCEEDED) as [->|Hne].
      + pose proof (takeWhile_dropWhile _ (fun kv => isLock ku vidLen (fst kv)) iter) as Hsplit.
        destruct (dropWhile (fun kv => isLock ku vidLen (fst kv)) iter) as [|[k v] rest'];
          [discriminate|].
        destruct (isEdge ku vidLen k) eqn:Hk; [|discriminate].
        destruct (indexLoop ku env_ spaceId vidLen partId (edge_type edge) (src edge)
                            (ranking edge) (dst edge) v None indexes []) as [e2|ops] eqn:Hix;
          cbn [bindE] in Hedge; [|discriminate].
        injection Hedge as ->.
        apply indexLoop_inl in Hix. destruct Hix as [[-> [_ Hr]]|[-> Hl]].
        * right. left. split; [reflexivity|]. exists k, v. split; [|now split].
          rewrite <- Hsplit. apply in_or_app. right. now left.
        * right. right. now split.
      + injection Hedge as ->. left. now split.
    - destruct (IH _ Hloop) as [edge' [Hin Hc]]. exists edge'. split; [now right|exact Hc]. }
  split; [|exact Hcause].
  destruct Hcause as [edge [_ [[_ Hne]|[[-> _]|[-> _]]]]]; [exact Hne|discriminate|discriminate].
Qed.

(** X6.  A batch that is built removes everything stored under the prefix
    of every edge of the partition: the scan of each edge succeeded, and
    the batch holds the removal of every key the scan returned. *)
Theorem X6_built_batch_removes_every_scanned_key :
  forall spaceId vidLen indexes partId edges payload,
    deleteEdges ku env_ spaceId vidLen indexes partId edges = inr payload ->
    exists batch,
      payload = encodeBatchValue ku batch /\
      forall edge, In edge edges ->
        let scan := kv_prefix env_ spaceId partId
                      (edgePrefix ku vidLen partId (src edge) (edge_type edge)
                                  (ranking edge) (dst edge)) in
        fst scan = SUCCEEDED /\
        forall key, In key (map fst (snd scan)) -> In (OP_BATCH_REMOVE key) batch.
Proof.
  intros spaceId vidLen indexes partId edges payload H. unfold deleteEdges in H.
  destruct (deleteEdgesLoop ku env_ spaceId vidLen indexes partId edges []) as [e|batch] eqn:Hloop;
    cbn [bindE] in H; [discriminate|].
  injection H as <-. exists batch. split; [reflexivity|].
  intros edge Hin. apply in_split in Hin. destruct Hin as [pre [post ->]].
  pose proof Hloop as Hloop'. rewrite deleteEdgesLoop_app in Hloop'.
  destruct (deleteEdgesLoop ku env_ spaceId vidLen indexes partId pre []) as [e|before];
    cbn [bindE deleteEdgesLoop] in Hloop'; [discriminate|].
  destruct (deleteEdge ku env_ spaceId vidLen indexes partId edge before) as [e|mid] eqn:Hedge;
    cbn [bindE] in Hloop'; [discriminate|].
  apply deleteEdge_inr in Hedge. destruct Hedge as [Hok _]. cbv zeta. split; [exact Hok|].
  intros key Hkey.
  destruct (deleteEdgesLoop_edge _ _ _ _ _ _ _ _ _ _ _ _ _ _ Hloop)
    as [before' [indexOps [after [_ [-> _]]]]].
  apply in_map_iff in Hkey. destruct Hkey as [kv [<- Hkv]].
  apply in_or_app. right. apply in_or_app. left.
  exact (orderedEdgeOps_covers _ _ _ indexOps kv Hkv).
Qed.

(** X7.  The builder composes: the operations of a list of edges are the
    operations of its first part followed by those of its second part,
    each built on its own, and the error is that of the first part if it
    fails, otherwise that of the second.  (The builder only reads the
    store, so an edge listed twice contributes its operations twice.) *)
Theorem X7_builder_composes :
  forall spaceId vidLen indexes partId edges1 edges2,
    deleteEdgesLoop ku env_ spaceId vidLen indexes partId (edges1 ++ edges2) [] =
    (b1 <-! deleteEdgesLoop ku env_ spaceId vidLen indexes partId edges1 [] ;;
     b2 <-! deleteEdgesLoop ku env_ spaceId vidLen indexes partId edges2 [] ;;
     inr (b1 ++ b2)).
Proof.
  intros spaceId vidLen indexes partId edges1 edges2.
  rewrite deleteEdgesLoop_app.
  destruct (deleteEdgesLoop ku env_ spaceId vidLen indexes partId edges1 []) as [e|b1];
    cbn [bindE]; [reflexivity|].
  apply deleteEdgesLoop_batch.
Qed.

End BuilderExtras.

(** * Further properties of the orchestrator *)

Section ProcessMore.

Variables RowReader IndexValues ColumnDef IndexState : Type.
Variable ku : KeyUtils RowReader IndexValues ColumnDef.
Variable env_ : StorageEnv RowReader ColumnDef IndexState.

Lemma lockedIn_app : forall l1 l2 k,
  lockedIn (l1 ++ l2) k = lockedIn l1 k || lockedIn l2 k.
Proof.
  intros l1 l2 k. unfold lockedIn.
  destruct (in_dec EMLI_eq_dec k (l1 ++ l2)) as [H|H],
           (in_dec EMLI_eq_dec k l1) as [H1|H1],
           (in_dec EMLI_eq_dec k l2) as [H2|H2]; cbn [orb]; try reflexivity.
  - apply in_app_or in H. tauto.
  - exfalso. apply H, in_or_app. now left.
  - exfalso. apply H, in_or_app. now left.
  - exfalso. apply H, in_or_app. now right.
Qed.

(** The lock keys of one partition are not among those of another. *)
Lemma lockedIn_other_partition : forall (spaceId : GraphSpaceID) (p q : PartitionID)
    (edges0 edges : list EdgeKey) held,
  p <> q ->
  existsb (lockedIn
             (nodup EMLI_eq_dec
                (map (fun ek => (spaceId, p, src ek, edge_type ek, ranking ek, dst ek)) edges0)
              ++ held))
          (map (fun ek => (spaceId, q, src ek, edge_type ek, ranking ek, dst ek)) edges) =
  existsb (lockedIn held)
          (map (fun ek => (spaceId, q, src ek, edge_type ek, ranking ek, dst ek)) edges).
Proof.
  intros spaceId p q edges0 edges held Hpq.
  induction edges as [|ek rest IH]; cbn [map existsb]; [reflexivity|].
  rewrite IH, lockedIn_app. f_equal.
  replace (lockedIn (nodup EMLI_eq_dec _) _) with false; [reflexivity|].
  symmetry. unfold lockedIn.
  destruct (in_dec EMLI_eq_dec _ _) as [H|H]; [|reflexivity].
  apply nodup_In, in_map_iff in H. destruct H as [ek0 [Heq _]]. congruence.
Qed.

(** The three outcomes of dispatching a partition on the index-aware
    path. *)
Lemma indexPart_cases : forall spaceId vidLen indexes partId edges st,
  let ids := map (fun ek => (spaceId, partId, src ek, edge_type ek, ranking ek, dst ek))
                 edges in
  indexPart ku env_ spaceId vidLen indexes (partId, edges) st =
  match deleteEdges ku env_ spaceId vidLen indexes partId edges with
  | inl e => handleAsync spaceId partId e st
  | inr batch =>
      if existsb (lockedIn (edgesML_ st)) ids
      then handleAsync spaceId partId E_DATA_CONFLICT_ERROR st
      else asyncAppendBatch spaceId partId batch (nodup EMLI_eq_dec ids)
             (set_edgesML (nodup EMLI_eq_dec ids ++ edgesML_ st) st)
  end.
Proof.
  intros spaceId vidLen indexes partId edges st ids. unfold indexPart. cbn [fst snd].
  fold ids. destruct (deleteEdges ku env_ spaceId vidLen indexes partId edges); [reflexivity|].
  unfold MemoryLockGuard.
  destruct (find (lockedIn (edgesML_ st)) ids) as [k|] eqn:Hfind.
  - apply find_some in Hfind.
    replace (existsb (lockedIn (edgesML_ st)) ids) with true; [reflexivity|].
    symmetry. apply existsb_exists. now exists k.
  - replace (existsb (lockedIn (edgesML_ st)) ids) with false; [reflexivity|].
    symmetry. apply not_true_is_false. intros H. apply existsb_exists in H.
    destruct H as [k [Hk Hl]]. now rewrite (find_none _ _ Hfind k Hk) in Hl.
Qed.

Lemma indexPart_monotone : forall spaceId vidLen indexes part st,
  let st' := indexPart ku env_ spaceId vidLen indexes part st in
  (forall x, In x (codes_ st) -> In x (codes_ st')) /\
  (forall x, In x (inflight_ st) -> In x (inflight_ st')).
Proof.
  intros spaceId vidLen indexes [partId edges] st. cbv zeta. rewrite indexPart_cases.
  destruct (deleteEdges ku env_ spaceId vidLen indexes partId edges) as [e|batch].
  - rewrite handleAsync_codes, handleAsync_inflight. split; [|tauto].
    intros x Hx. apply in_or_app. now left.
  - destruct (existsb _ _).
    + rewrite handleAsync_codes, handleAsync_inflight. split; [|tauto].
      intros x Hx. apply in_or_app. now left.
    + cbn [asyncAppendBatch set_inflight set_edgesML codes_ inflight_]. split; [tauto|].
      intros x Hx. apply in_or_app. now left.
Qed.

Lemma indexPart_fold_monotone : forall spaceId vidLen indexes todo st,
  let st' := fold_left (fun s part => indexPart ku env_ spaceId vidLen indexes part s)
                       todo st in
  (forall x, In x (codes_ st) -> In x (codes_ st')) /\
  (forall x, In x (inflight_ st) -> In x (inflight_ st')).
Proof.
  intros spaceId vidLen indexes. induction todo as [|part todo IH]; intros st;
    cbn [fold_left]; [tauto|].
  destruct (IH (indexPart ku env_ spaceId vidLen indexes part st)) as [Hc Hi].
  destruct (indexPart_monotone spaceId vidLen indexes part st) as [Hc1 Hi1].
  cbv zeta in *. split; intros x Hx; [apply Hc, Hc1, Hx|apply Hi, Hi1, Hx].
Qed.

(** The outcome of each partition of the dispatch loop, from its own edges
    and the locks held when the loop starts. *)
Lemma index_path_fold : forall spaceId vidLen indexes todo st partId edges,
  NoDup (map fst todo) ->
  In (partId, edges) todo ->
  let ids := map (fun ek => (spaceId, partId, src ek, edge_type ek, ranking ek, dst ek))
                 edges in
  let st' := fold_left (fun s part => indexPart ku env_ spaceId vidLen indexes part s)
                       todo st in
  match deleteEdges ku env_ spaceId vidLen indexes partId edges with
  | inl e => In (partId, e) (codes_ st')
  | inr batch =>
      if existsb (lockedIn (edgesML_ st)) ids
      then In (partId, E_DATA_CONFLICT_ERROR) (codes_ st')
      else In (mkPending partId (AsyncAppendBatch batch) (nodup EMLI_eq_dec ids))
              (inflight_ st')
  end.
Proof.
  intros spaceId vidLen indexes. induction todo as [|[p0 e0] todo IH];
    intros st partId edges Hnd Hin; [destruct Hin|].
  cbn [map fst] in Hnd. inversion Hnd as [|x l Hx Hl]; subst. cbn [fold_left].
  destruct (indexPart_fold_monotone spaceId vidLen indexes todo
              (indexPart ku env_ spaceId vidLen indexes (p0, e0) st)) as [Hc Hi].
  cbv zeta in Hc, Hi.
  destruct Hin as [Heq|Hin].
  - injection Heq as -> ->. cbv zeta. rewrite indexPart_cases in Hc, Hi |- *.
    destruct (deleteEdges ku env_ spaceId vidLen indexes partId edges) as [e|batch].
    + apply Hc. rewrite handleAsync_codes. apply in_or_app. right. now left.
    + destruct (existsb _ _).
      * apply Hc. rewrite handleAsync_codes. apply in_or_app. right. now left.
      * apply Hi. cbn [asyncAppendBatch set_inflight inflight_]. apply in_or_app.
        right. now left.
  - specialize (IH (indexPart ku env_ spaceId vidLen indexes (p0, e0) st) partId edges Hl Hin).
    cbv zeta in IH |- *.
    assert (Hpq : p0 <> partId).
    { intros ->. apply Hx. now apply (in_map fst) in Hin. }
    assert (Hlock :
      existsb (lockedIn (edgesML_ (indexPart ku env_ spaceId vidLen indexes (p0, e0) st)))
              (map (fun ek => (spaceId, partId, src ek, edge_type ek, ranking ek, dst ek))
                   edges) =
      existsb (lockedIn (edgesML_ st))
              (map (fun ek => (spaceId, partId, src ek, edge_type ek, ranking ek, dst ek))
                   edges)).
    { rewrite indexPart_cases.
      destruct (deleteEdges ku env_ spaceId vidLen indexes p0 e0) as [e|batch0].
      - now rewrite handleAsync_edgesML.
      - destruct (existsb (lockedIn (edgesML_ st)) _).
        + now rewrite handleAsync_edgesML.
        + cbn [asyncAppendBatch set_inflight set_edgesML edgesML_].
          now apply lockedIn_other_partition. }
    rewrite Hlock in IH. exact IH.
Qed.

End ProcessMore.

Section ProcessExtras.

Variables RowReader IndexValues ColumnDef IndexState : Type.
Variable ku : KeyUtils RowReader IndexValues ColumnDef.
Variable env_ : StorageEnv RowReader ColumnDef IndexState.

(** X9.  No partition is submitted twice: in every configuration a
    request reaches, the submissions in flight are for pairwise distinct
    partitions of the request, and none is for a partition that already
    has its code. *)
Theorem X9_no_partition_submitted_twice :
  forall req held c,
    NoDup (map fst (parts req)) ->
    reachable ku env_ req held c ->
    NoDup (map cb_part (inflight_ (snd c))) /\
    (forall cb, In cb (inflight_ (snd c)) ->
                In (cb_part cb) (map fst (parts req)) /\
                ~ In (cb_part cb) (map fst (codes_ (snd c)))).
Proof.
  intros req held c Hnd Hreach.
  destruct (parts req) as [|part rest] eqn:Hparts.
  - assert (Hidle : inflight_ (snd c) = []).
    { unfold reachable in Hreach. rewrite Hparts in Hreach.
      destruct (getSpaceVidLen env_ (space_id req)) as [vidLen|] eqn:Hv.
      - destruct (getEdgeIndexes env_ (space_id req)) as [indexes|] eqn:Hi.
        + apply idle_stays_idle in Hreach; [|reflexivity]. now destruct Hreach as [_ [H _]].
        + rewrite Hreach. unfold process. rewrite Hv, Hi, Hparts. reflexivity.
      - rewrite Hreach. unfold process. rewrite Hv, Hparts. reflexivity. }
    rewrite Hidle. split; [constructor|]. intros cb [].
  - assert (Hne : parts req <> []) by (rewrite Hparts; discriminate).
    destruct (reachable_invariant _ _ _ _ ku env_ req held c Hne Hreach) as [Hacc _].
    rewrite Hparts in Hacc.
    destruct (accounted_NoDup _ _ Hnd Hacc) as [_ Hnot].
    unfold accounted in Hacc. split.
    + apply (Permutation_NoDup Hacc) in Hnd.
      apply NoDup_app_remove_l in Hnd. now apply NoDup_app_remove_r in Hnd.
    + intros cb Hcb. split; [|now apply Hnot].
      apply (Permutation_in _ (Permutation_sym Hacc)).
      apply in_or_app. right. apply in_or_app. left. now apply in_map.
Qed.

End ProcessExtras.

(** ** Sample runs of the further properties *)

Section ScenariosMore.

Local Open Scope string_scope.

Lemma X1_normal_removes_index_key_witness :
  lifecycle Sample.envNormal (getIndexState Sample.envNormal 1 1) = Normal /\
  exists batch,
    deleteEdges Sample.keyUtils Sample.envNormal 1 Sample.vid8 Sample.indexes3 1
                [Sample.edgeAB; Sample.edgeCD] =
    inr (encodeBatchValue Sample.keyUtils batch) /\
    In (OP_BATCH_REMOVE Sample.indexKeyAB) batch /\
    forallb isRemove batch = true.
Proof.
  split; [reflexivity|].
  destruct (X1_normal_removes_index_key _ _ _ _ Sample.keyUtils Sample.envNormal
              1 Sample.vid8 Sample.indexes3 1 [] Sample.edgeAB [Sample.edgeCD] _
              Sample.recordAB "row1" [Sample.staleAB] "row1" Sample.idxName "name=row1"
              eq_refl eq_refl eq_refl eq_refl eq_refl (or_introl eq_refl) eq_refl eq_refl)
    as (batch & Hpay & Hrem & Hall).
  exists batch. split; [exact (f_equal (@inr ErrorCode string) Hpay)|]. now split.
Defined.

Lemma X2_scan_error_is_returned_witness :
  E_STORE 7 <> SUCCEEDED /\
  deleteEdges Sample.keyUtils Sample.envScanError 1 Sample.vid8 Sample.indexes3 1
              [Sample.edgeAB; Sample.edgeCD] = inl (E_STORE 7) /\
  (forall st,
      indexPart Sample.keyUtils Sample.envScanError 1 Sample.vid8 Sample.indexes3
                (1, [Sample.edgeAB; Sample.edgeCD]) st =
      handleAsync 1 1 (E_STORE 7) st).
Proof.
  assert (Hne : E_STORE 7 <> SUCCEEDED) by discriminate.
  split; [exact Hne|].
  exact (X2_scan_error_is_returned _ _ _ _ Sample.keyUtils Sample.envScanError
           1 Sample.vid8 Sample.indexes3 1 [] Sample.edgeAB [Sample.edgeCD] [] (E_STORE 7) []
           eq_refl eq_refl Hne).
Defined.

Lemma X3_undecodable_record_fails_partition_witness :
  getEdgePropReader Sample.envBadRow 1 (edge_type Sample.edgeAB) "" = None /\
  deleteEdges Sample.keyUtils Sample.envBadRow 1 Sample.vid8 Sample.indexes3 1
              [Sample.edgeAB] = inl E_INVALID_DATA /\
  (forall st,
      indexPart Sample.keyUtils Sample.envBadRow 1 Sample.vid8 Sample.indexes3
                (1, [Sample.edgeAB]) st =
      handleAsync 1 1 E_INVALID_DATA st).
Proof.
  split; [reflexivity|].
  exact (X3_undecodable_record_fails_partition _ _ _ _ Sample.keyUtils Sample.envBadRow
           1 Sample.vid8 Sample.indexes3 1 [] Sample.edgeAB [] [] Sample.storeBadRow
           Sample.recordAB "" [] Sample.idxName
           eq_refl eq_refl eq_refl eq_refl eq_refl (or_introl eq_refl) eq_refl).
Defined.

Lemma X4_plain_removal_without_index_entry_witness :
  lifecycle Sample.envLockedOther (getIndexState Sample.envLockedOther 1 1) = Locked /\
  deleteEdge Sample.keyUtils Sample.envLockedOther 1 Sample.vid8 [Sample.idxOther] 1
             Sample.edgeAB [] =
  inr (map removeOf Sample.storeAB).
Proof.
  split; [reflexivity|].
  apply (X4_plain_removal_without_index_entry _ _ _ _ Sample.keyUtils Sample.envLockedOther
           1 Sample.vid8 [Sample.idxOther] 1 Sample.edgeAB [] Sample.storeAB eq_refl).
  right. intros index [<-|[]]. discriminate.
Defined.

Lemma X5_builder_error_causes_witness :
  deleteEdges Sample.keyUtils Sample.envLocked 1 Sample.vid8 Sample.indexes3 1
              [Sample.edgeAB; Sample.edgeCD] = inl E_DATA_CONFLICT_ERROR /\
  E_DATA_CONFLICT_ERROR <> SUCCEEDED /\
  exists edge,
    In edge [Sample.edgeAB; Sample.edgeCD] /\
    ((fst (kv_prefix Sample.envLocked 1 1
             (edgePrefix Sample.keyUtils Sample.vid8 1 (src edge) (edge_type edge)
                         (ranking edge) (dst edge))) = E_DATA_CONFLICT_ERROR /\
      E_DATA_CONFLICT_ERROR <> SUCCEEDED) \/
     (E_DATA_CONFLICT_ERROR = E_INVALID_DATA /\
      exists k v,
        In (k, v) (snd (kv_prefix Sample.envLocked 1 1
                          (edgePrefix Sample.keyUtils Sample.vid8 1 (src edge)
                                      (edge_type edge) (ranking edge) (dst edge)))) /\
        isEdge Sample.keyUtils Sample.vid8 k = true /\
        getEdgePropReader Sample.envLocked 1 (edge_type edge) v = None) \/
     (E_DATA_CONFLICT_ERROR = E_DATA_CONFLICT_ERROR /\
      lifecycle Sample.envLocked (getIndexState Sample.envLocked 1 1) = Locked)).
Proof.
  split; [reflexivity|].
  exact (X5_builder_error_causes _ _ _ _ Sample.keyUtils Sample.envLocked
           1 Sample.vid8 Sample.indexes3 1 [Sample.edgeAB; Sample.edgeCD]
           E_DATA_CONFLICT_ERROR eq_refl).
Defined.

Lemma X6_built_batch_removes_every_scanned_key_witness :
  exists batch,
    deleteEdges Sample.keyUtils Sample.envRebuilding 1 Sample.vid8 Sample.indexes3 1
                [Sample.edgeAB; Sample.edgeCD] =
    inr (encodeBatchValue Sample.keyUtils batch) /\
    (forall key, In key (map fst Sample.storeAB) -> In (OP_BATCH_REMOVE key) batch).
Proof.
  destruct (X6_built_batch_removes_every_scanned_key _ _ _ _ Sample.keyUtils
              Sample.envRebuilding 1 Sample.vid8 Sample.indexes3 1
              [Sample.edgeAB; Sample.edgeCD] _ eq_refl) as (batch & Hpay & Hall).
  exists batch. split; [exact (f_equal (@inr ErrorCode string) Hpay)|].
  exact (proj2 (Hall Sample.edgeAB (or_introl eq_refl))).
Defined.

Lemma X9_no_partition_submitted_twice_witness :
  NoDup (map fst (parts Sample.reqTwo)) /\
  NoDup (map cb_part
           (inflight_ (process Sample.keyUtils Sample.envNormal Sample.reqTwo
                               (newProcessor [])))).
Proof.
  assert (Hnd : NoDup (map fst (parts Sample.reqTwo))).
  { repeat constructor; cbn; intuition discriminate. }
  split; [exact Hnd|].
  exact (proj1 (X9_no_partition_submitted_twice _ _ _ _ Sample.keyUtils Sample.envNormal
                  Sample.reqTwo [] _ Hnd
                  (process_reachable _ _ _ _ Sample.keyUtils Sample.envNormal
                     Sample.reqTwo []))).
Defined.

End ScenariosMore.

(** * The builder with the index state as it is read *)

Section ObservedFacts.

Variables RowReader IndexValues ColumnDef IndexState : Type.
Variable ku : KeyUtils RowReader IndexValues ColumnDef.
Variable env_ : StorageEnv RowReader ColumnDef IndexState.
Variable spaceId : GraphSpaceID.
Variable vidLen : Z.
Variable observed : nat -> IndexState.

Lemma branchEntries_batch : forall partId keys q b,
  branchEntries ku env_ observed partId keys q b =
  ('(q', ops) <-! branchEntries ku env_ observed partId keys q [] ;; inr (q', b ++ ops)).
Proof.
  intros partId. induction keys as [|key rest IH]; intros q b; cbn [branchEntries].
  - cbn [bindE]. now rewrite app_nil_r.
  - destruct (lifecycle env_ (observed q)); [|
      rewrite IH, (IH _ ([] ++ _));
      destruct (branchEntries ku env_ observed partId rest (S q) []) as [e|[q' ops]];
      cbn [bindE app]; [reflexivity|now rewrite <- app_assoc] |reflexivity].
    rewrite IH, (IH _ ([] ++ _)).
    destruct (branchEntries ku env_ observed partId rest (S q) []) as [e|[q' ops]];
      cbn [bindE app]; [reflexivity|now rewrite <- app_assoc].
Qed.

Lemma indexLoopObs_batch : forall partId type srcId rank dstId val idxs reader q b,
  indexLoopObs ku env_ spaceId vidLen observed partId type srcId rank dstId val reader idxs q b =
  ('(q', ops) <-! indexLoopObs ku env_ spaceId vidLen observed partId type srcId rank dstId
                               val reader idxs q [] ;;
   inr (q', b ++ ops)).
Proof.
  intros partId type srcId rank dstId val.
  induction idxs as [|index rest IH]; intros reader q b; cbn [indexLoopObs].
  - cbn [bindE]. now rewrite app_nil_r.
  - destruct (type =? schema_edge_type index); [|apply IH].
    destruct (match reader with
              | Some r => Some r
              | None => getEdgePropReader env_ spaceId type val
              end) as [r|]; [|reflexivity].
    destruct (collectIndexValues ku r (fields index)) as [values|]; [|apply IH].
    destruct (checkRebuilding env_ (observed q)).
    + rewrite IH, (IH _ _ (bh_put [] _ _)).
      destruct (indexLoopObs ku env_ spaceId vidLen observed partId type srcId rank dstId val
                             (Some r) rest (S q) []) as [e|[q' ops]]; cbn [bindE];
        [reflexivity|]. unfold bh_put. now rewrite <- app_assoc.
    + destruct (checkIndexLocked env_ (observed q)); [reflexivity|].
      rewrite IH, (IH _ _ (bh_remove [] _)).
      destruct (indexLoopObs ku env_ spaceId vidLen observed partId type srcId rank dstId val
                             (Some r) rest (S q) []) as [e|[q' ops]]; cbn [bindE];
        [reflexivity|]. unfold bh_remove. now rewrite <- app_assoc.
Qed.

(** Once the record is decoded, the per-index loop is the entry-by-entry
    branching over the keys of its index entries. *)
Lemma indexLoopObs_decoded : forall partId edge val r idxs q b,
  indexLoopObs ku env_ spaceId vidLen observed partId (edge_type edge) (src edge)
               (ranking edge) (dst edge) val (Some r) idxs q b =
  branchEntries ku env_ observed partId (indexKeys ku vidLen partId edge r idxs) q b.
Proof.
  intros partId edge val r. induction idxs as [|index rest IH]; intros q b;
    cbn [indexLoopObs indexKeys flat_map]; [reflexivity|].
  fold (indexKeys ku vidLen partId edge r rest).
  destruct (edge_type edge =? schema_edge_type index); [|apply IH].
  destruct (collectIndexValues ku r (fields index)) as [values|]; [|apply IH].
  cbn [app branchEntries]. unfold lifecycle.
  destruct (checkRebuilding env_ (observed q)); [apply IH|].
  destruct (checkIndexLocked env_ (observed q)); [reflexivity|apply IH].
Qed.

Lemma indexLoopObs_reader : forall partId type srcId rank dstId val r idxs q b,
  getEdgePropReader env_ spaceId type val = Some r ->
  indexLoopObs ku env_ spaceId vidLen observed partId type srcId rank dstId val None idxs q b =
  indexLoopObs ku env_ spaceId vidLen observed partId type srcId rank dstId val (Some r)
               idxs q b.
Proof.
  intros partId type srcId rank dstId val r idxs q b Hr. revert q b.
  induction idxs as [|index rest IH]; intros q b; cbn [indexLoopObs]; [reflexivity|].
  destruct (type =? schema_edge_type index); [|apply IH].
  now rewrite Hr.
Qed.

(** A loop that succeeds from a fresh reader is the branching over the
    entries of the record ([recordIndexKeys] has none when the value does
    not decode: then no index was on the edge's type). *)
Lemma indexLoopObs_fresh : forall partId edge val idxs q b q' b',
  indexLoopObs ku env_ spaceId vidLen observed partId (edge_type edge) (src edge)
               (ranking edge) (dst edge) val None idxs q b = inr (q', b') ->
  branchEntries ku env_ observed partId
    (match getEdgePropReader env_ spaceId (edge_type edge) val with
     | Some r => indexKeys ku vidLen partId edge r idxs
     | None => []
     end) q b = inr (q', b').
Proof.
  intros partId edge val idxs q b q' b' H.
  destruct (getEdgePropReader env_ spaceId (edge_type edge) val) as [r|] eqn:Hr.
  - erewrite indexLoopObs_reader in H by exact Hr. now rewrite indexLoopObs_decoded in H.
  - revert H. induction idxs as [|index rest IH]; cbn [indexLoopObs branchEntries];
      [trivial|].
    destruct (edge_type edge =? schema_edge_type index); [|exact IH].
    rewrite Hr. discriminate.
Qed.

(** What one edge does, from the scan result. *)
Lemma deleteEdgeObs_unfold : forall indexes partId edge q b ret iter,
  kv_prefix env_ spaceId partId
            (edgePrefix ku vidLen partId (src edge) (edge_type edge) (ranking edge) (dst edge))
  = (ret, iter) ->
  deleteEdgeObs ku env_ spaceId vidLen indexes observed partId edge q b =
  if ErrorCode_eqb ret SUCCEEDED then
    match dropWhile (fun kv => isLock ku vidLen (fst kv)) iter with
    | (k, v) :: rest =>
        if isEdge ku vidLen k then
          '(q', ops) <-! indexLoopObs ku env_ spaceId vidLen observed partId (edge_type edge)
                                      (src edge) (ranking edge) (dst edge) v None indexes
                                      q [] ;;
          inr (q', b ++ orderedEdgeOps (isLock ku vidLen) (isEdge ku vidLen) iter ops)
        else inr (q, b ++ map removeOf iter)
    | [] => inr (q, b ++ map removeOf iter)
    end
  else inl ret.
Proof.
  intros indexes partId edge q b ret iter Hscan. unfold deleteEdgeObs. rewrite Hscan.
  destruct (ErrorCode_eqb ret SUCCEEDED); [|reflexivity].
  rewrite removeLocks_spec.
  pose proof (takeWhile_dropWhile _ (fun kv => isLock ku vidLen (fst kv)) iter) as Hsplit.
  unfold orderedEdgeOps.
  destruct (dropWhile (fun kv => isLock ku vidLen (fst kv)) iter) as [|[k v] rest];
    cbn [removeRecordObs bindE removeRest].
  - rewrite <- Hsplit at 2. now rewrite app_nil_r.
  - destruct (isEdge ku vidLen k).
    + rewrite indexLoopObs_batch.
      destruct (indexLoopObs ku env_ spaceId vidLen observed partId (edge_type edge)
                             (src edge) (ranking edge) (dst edge) v None indexes q [])
        as [e|[q' ops]]; cbn [bindE]; [reflexivity|].
      rewrite removeRest_spec. unfold bh_remove. now rewrite <- !app_assoc.
    + cbn [bindE]. rewrite removeRest_spec. rewrite <- Hsplit at 2.
      rewrite map_app. now rewrite <- !app_assoc.
Qed.

(** What one edge contributes when it succeeds: the ordered operations of
    the edge, with the operations of the record's index entries branched
    from the read at which the edge is reached. *)
Lemma deleteEdgeObs_inr : forall indexes partId edge q b q2 b',
  deleteEdgeObs ku env_ spaceId vidLen indexes observed partId edge q b = inr (q2, b') ->
  let scan := kv_prefix env_ spaceId partId
                (edgePrefix ku vidLen partId (src edge) (edge_type edge)
                            (ranking edge) (dst edge)) in
  fst scan = SUCCEEDED /\
  exists indexOps,
    branchEntries ku env_ observed partId
      (recordIndexKeys ku env_ spaceId vidLen indexes partId edge (snd scan)) q []
    = inr (q2, indexOps) /\
    b' = b ++ orderedEdgeOps (isLock ku vidLen) (isEdge ku vidLen) (snd scan) indexOps.
Proof.
  intros indexes partId edge q b q2 b' H.
  destruct (kv_prefix env_ spaceId partId _) as [ret iter] eqn:Hscan.
  rewrite (deleteEdgeObs_unfold indexes partId edge q b ret iter Hscan) in H.
  cbn [fst snd]. unfold ErrorCode_eqb in H.
  destruct (ErrorCode_eq_dec ret SUCCEEDED) as [->|]; [|discriminate].
  split; [reflexivity|]. unfold recordIndexKeys.
  destruct (dropWhile (fun kv => isLock ku vidLen (fst kv)) iter) as [|[k v] rest] eqn:Hdrop.
  - injection H as <- <-. exists []. split; [reflexivity|]. now rewrite orderedEdgeOps_nil.
  - destruct (isEdge ku vidLen k) eqn:Hk.
    + destruct (indexLoopObs ku env_ spaceId vidLen observed partId (edge_type edge)
                             (src edge) (ranking edge) (dst edge) v None indexes q [])
        as [e|[q' ops]] eqn:Hloop; cbn [bindE] in H; [discriminate|].
      injection H as <- <-. exists ops. split; [|reflexivity].
      now apply indexLoopObs_fresh in Hloop.
    + injection H as <- <-. exists []. split; [reflexivity|]. now rewrite orderedEdgeOps_nil.
Qed.

Lemma deleteEdgeObs_batch : forall indexes partId edge q b,
  deleteEdgeObs ku env_ spaceId vidLen indexes observed partId edge q b =
  ('(q', ops) <-! deleteEdgeObs ku env_ spaceId vidLen indexes observed partId edge q [] ;;
   inr (q', b ++ ops)).
Proof.
  intros indexes partId edge q b.
  destruct (kv_prefix env_ spaceId partId
              (edgePrefix ku vidLen partId (src edge) (edge_type edge) (ranking edge)
                          (dst edge))) as [ret iter] eqn:Hscan.
  rewrite !(deleteEdgeObs_unfold indexes partId edge q _ ret iter Hscan).
  destruct (ErrorCode_eqb ret SUCCEEDED); [|reflexivity].
  destruct (dropWhile (fun kv => isLock ku vidLen (fst kv)) iter) as [|[k v] rest];
    [reflexivity|].
  destruct (isEdge ku vidLen k); [|reflexivity].
  now destruct (indexLoopObs ku env_ spaceId vidLen observed partId (edge_type edge)
                             (src edge) (ranking edge) (dst edge) v None indexes q [])
    as [e|[q' ops]].
Qed.

Lemma deleteEdgesLoopObs_batch : forall indexes partId edges q b,
  deleteEdgesLoopObs ku env_ spaceId vidLen indexes observed partId edges q b =
  ('(q', ops) <-! deleteEdgesLoopObs ku env_ spaceId vidLen indexes observed partId edges q [] ;;
   inr (q', b ++ ops)).
Proof.
  intros indexes partId. induction edges as [|edge rest IH]; intros q b;
    cbn [deleteEdgesLoopObs].
  - cbn [bindE]. now rewrite app_nil_r.
  - rewrite deleteEdgeObs_batch.
    destruct (deleteEdgeObs ku env_ spaceId vidLen indexes observed partId edge q [])
      as [e|[q1 ops]]; cbn [bindE app]; [reflexivity|].
    rewrite IH, (IH _ ops).
    destruct (deleteEdgesLoopObs ku env_ spaceId vidLen indexes observed partId rest q1 [])
      as [e|[q2 ops2]]; cbn [bindE]; [reflexivity|].
    now rewrite <- app_assoc.
Qed.

Lemma deleteEdgesLoopObs_app : forall indexes partId pre post q b,
  deleteEdgesLoopObs ku env_ spaceId vidLen indexes observed partId (pre ++ post) q b =
  ('(q', b') <-! deleteEdgesLoopObs ku env_ spaceId vidLen indexes observed partId pre q b ;;
   deleteEdgesLoopObs ku env_ spaceId vidLen indexes observed partId post q' b').
Proof.
  intros indexes partId. induction pre as [|edge rest IH]; intros post q b;
    cbn [app deleteEdgesLoopObs]; [reflexivity|].
  destruct (deleteEdgeObs ku env_ spaceId vidLen indexes observed partId edge q b)
    as [e|[q1 b1]]; cbn [bindE]; [reflexivity|apply IH].
Qed.

(** A construction during which the state does not change is
    [deleteEdges]. *)
Lemma indexLoopObs_constant : forall partId,
  (forall n, observed n = getIndexState env_ spaceId partId) ->
  forall type srcId rank dstId val idxs reader q b,
    dropReads (indexLoopObs ku env_ spaceId vidLen observed partId type srcId rank dstId val
                            reader idxs q b) =
    indexLoop ku env_ spaceId vidLen partId type srcId rank dstId val reader idxs b.
Proof.
  intros partId Hconst type srcId rank dstId val.
  induction idxs as [|index rest IH]; intros reader q b; cbn [indexLoopObs indexLoop];
    [reflexivity|].
  destruct (type =? schema_edge_type index); [|apply IH].
  destruct (match reader with
            | Some r => Some r
            | None => getEdgePropReader env_ spaceId type val
            end) as [r|]; [|reflexivity].
  destruct (collectIndexValues ku r (fields index)) as [values|]; [|apply IH].
  rewrite Hconst.
  destruct (checkRebuilding env_ (getIndexState env_ spaceId partId)); [apply IH|].
  destruct (checkIndexLocked env_ (getIndexState env_ spaceId partId)); [reflexivity|apply IH].
Qed.

Lemma deleteEdgesLoopObs_constant : forall indexes partId,
  (forall n, observed n = getIndexState env_ spaceId partId) ->
  forall edges q b,
    dropReads (deleteEdgesLoopObs ku env_ spaceId vidLen indexes observed partId edges q b) =
    deleteEdgesLoop ku env_ spaceId vidLen indexes partId edges b.
Proof.
  intros indexes partId Hconst. induction edges as [|edge rest IH]; intros q b;
    cbn [deleteEdgesLoopObs deleteEdgesLoop]; [reflexivity|].
  assert (Hedge :
    dropReads (deleteEdgeObs ku env_ spaceId vidLen indexes observed partId edge q b) =
    deleteEdge ku env_ spaceId vidLen indexes partId edge b).
  { destruct (kv_prefix env_ spaceId partId
                (edgePrefix ku vidLen partId (src edge) (edge_type edge) (ranking edge)
                            (dst edge))) as [ret iter] eqn:Hscan.
    rewrite (deleteEdgeObs_unfold indexes partId edge q b ret iter Hscan).
    rewrite (deleteEdge_unfold _ _ _ _ ku env_ spaceId vidLen indexes partId edge b ret iter
               Hscan).
    destruct (ErrorCode_eqb ret SUCCEEDED); [|reflexivity].
    destruct (dropWhile (fun kv => isLock ku vidLen (fst kv)) iter) as [|[k v] rest'];
      [reflexivity|].
    destruct (isEdge ku vidLen k); [|reflexivity].
    rewrite <- (indexLoopObs_constant partId Hconst _ _ _ _ v indexes None q []).
    now destruct (indexLoopObs ku env_ spaceId vidLen observed partId (edge_type edge)
                               (src edge) (ranking edge) (dst edge) v None indexes q [])
      as [e|[q' ops]]. }
  rewrite <- Hedge.
  destruct (deleteEdgeObs ku env_ spaceId vidLen indexes observed partId edge q b)
    as [e|[q1 b1]]; cbn [bindE dropReads]; [reflexivity|apply IH].
Qed.

Lemma deleteEdgesObs_constant : forall indexes partId edges,
  (forall n, observed n = getIndexState env_ spaceId partId) ->
  deleteEdgesObs ku env_ spaceId vidLen indexes observed partId edges =
  deleteEdges ku env_ spaceId vidLen indexes partId edges.
Proof.
  intros indexes partId edges Hconst. unfold deleteEdgesObs, deleteEdges.
  rewrite <- (deleteEdgesLoopObs_constant indexes partId Hconst edges 0%nat []).
  now destruct (deleteEdgesLoopObs ku env_ spaceId vidLen indexes observed partId edges 0%nat [])
    as [e|[q b]].
Qed.

End ObservedFacts.

Section ObservedClaims.

Variables RowReader IndexValues ColumnDef IndexState : Type.
Variable ku : KeyUtils RowReader IndexValues ColumnDef.
Variable env_ : StorageEnv RowReader ColumnDef IndexState.

(** C2, as the code has it.  The branch taken for the entry of an index
    is decided by the state that the query for the (space, partition) pair
    returns when the entry is reached: the per-index loop is the
    entry-by-entry branching [branchEntries] over the keys of the entries,
    the [n]-th entry reached being classified by the [n]-th read.  The
    query does not take the index, which enters only through the key of
    its entry; two indexes of one partition are classified differently in
    one construction exactly when the states read for them differ. *)
Theorem C2_branch_decided_by_state_read_at_entry :
  forall spaceId vidLen observed partId edge val r idxs q b,
    getEdgePropReader env_ spaceId (edge_type edge) val = Some r ->
    indexLoopObs ku env_ spaceId vidLen observed partId (edge_type edge) (src edge)
                 (ranking edge) (dst edge) val None idxs q b =
    branchEntries ku env_ observed partId (indexKeys ku vidLen partId edge r idxs) q b.
Proof.
  intros spaceId vidLen observed partId edge val r idxs q b Hr.
  erewrite indexLoopObs_reader by exact Hr. apply indexLoopObs_decoded.
Qed.

(** C3.  Whenever the index-aware builder produces a batch for a
    partition, the batch is, for each of its edges, exactly: the batch of
    the edges before it; one removal per leading lock key of the edge's
    scan; then, if the next key is an edge record, the operations of the
    record's index entries followed by the removal of the record; then one
    removal per remaining key; and the batch of the edges after it. *)
Theorem C3_edge_operations_in_order :
  forall spaceId vidLen indexes observed partId pre edge post payload,
    deleteEdgesObs ku env_ spaceId vidLen indexes observed partId (pre ++ edge :: post)
    = inr payload ->
    let iter := snd (kv_prefix env_ spaceId partId
                       (edgePrefix ku vidLen partId (src edge) (edge_type edge)
                                   (ranking edge) (dst edge))) in
    exists q1 before q2 indexOps q3 after,
      deleteEdgesLoopObs ku env_ spaceId vidLen indexes observed partId pre 0%nat []
      = inr (q1, before) /\
      branchEntries ku env_ observed partId
        (recordIndexKeys ku env_ spaceId vidLen indexes partId edge iter) q1 []
      = inr (q2, indexOps) /\
      deleteEdgesLoopObs ku env_ spaceId vidLen indexes observed partId post q2 []
      = inr (q3, after) /\
      payload = encodeBatchValue ku
                  (before ++
                   orderedEdgeOps (isLock ku vidLen) (isEdge ku vidLen) iter indexOps ++
                   after).
Proof.
  intros spaceId vidLen indexes observed partId pre edge post payload H iter.
  unfold deleteEdgesObs in H.
  destruct (deleteEdgesLoopObs ku env_ spaceId vidLen indexes observed partId
              (pre ++ edge :: post) 0%nat []) as [e|[q batch]] eqn:Hloop;
    cbn [bindE] in H; [discriminate|].
  injection H as <-.
  rewrite deleteEdgesLoopObs_app in Hloop.
  destruct (deleteEdgesLoopObs ku env_ spaceId vidLen indexes observed partId pre 0%nat [])
    as [e|[q1 before]] eqn:Hpre; cbn [bindE deleteEdgesLoopObs] in Hloop; [discriminate|].
  destruct (deleteEdgeObs ku env_ spaceId vidLen indexes observed partId edge q1 before)
    as [e|[q2 mid]] eqn:Hedge; cbn [bindE] in Hloop; [discriminate|].
  apply deleteEdgeObs_inr in Hedge. destruct Hedge as [_ [indexOps [Hidx ->]]].
  rewrite deleteEdgesLoopObs_batch in Hloop.
  destruct (deleteEdgesLoopObs ku env_ spaceId vidLen indexes observed partId post q2 [])
    as [e|[q3 after]] eqn:Hpost; cbn [bindE] in Hloop; [discriminate|].
  injection Hloop as <- <-.
  exists q1, before, q2, indexOps, q3, after.
  split; [first [exact Hpre|reflexivity]|]. split; [exact Hidx|].
  split; [first [exact Hpost|reflexivity]|].
  unfold getBatch. now rewrite <- app_assoc.
Qed.

(** C6.  When the field values of an index cannot be extracted from the
    decoded record of an edge, that index contributes no operation, no
    read of the index state and no error: the per-index loop is the
    branching over the entries of the other indexes, in order, and the
    edge's operations are the removals of the leading locks, the
    operations of those entries, the removal of the record and the
    removals of the remaining keys.  It is the edge processed without that
    index. *)
Theorem C6_extraction_failure_skips_only_that_index :
  forall spaceId vidLen observed ipre index ipost partId edge q b iter k v rest r,
    kv_prefix env_ spaceId partId
              (edgePrefix ku vidLen partId (src edge) (edge_type edge) (ranking edge)
                          (dst edge)) = (SUCCEEDED, iter) ->
    dropWhile (fun kv => isLock ku vidLen (fst kv)) iter = (k, v) :: rest ->
    isEdge ku vidLen k = true ->
    getEdgePropReader env_ spaceId (edge_type edge) v = Some r ->
    collectIndexValues ku r (fields index) = None ->
    let others := indexKeys ku vidLen partId edge r ipre ++
                  indexKeys ku vidLen partId edge r ipost in
    indexLoopObs ku env_ spaceId vidLen observed partId (edge_type edge) (src edge)
                 (ranking edge) (dst edge) v None (ipre ++ index :: ipost) q b =
      branchEntries ku env_ observed partId others q b /\
    deleteEdgeObs ku env_ spaceId vidLen (ipre ++ index :: ipost) observed partId edge q b =
      ('(q', ops) <-! branchEntries ku env_ observed partId others q [] ;;
       inr (q', b ++ map removeOf (takeWhile (fun kv => isLock ku vidLen (fst kv)) iter) ++
                     ops ++ OP_BATCH_REMOVE k :: map removeOf rest)) /\
    deleteEdgeObs ku env_ spaceId vidLen (ipre ++ index :: ipost) observed partId edge q b =
    deleteEdgeObs ku env_ spaceId vidLen (ipre ++ ipost) observed partId edge q b.
Proof.
  intros spaceId vidLen observed ipre index ipost partId edge q b iter k v rest r
         Hscan Hdrop Hk Hr Hval others.
  assert (Hkeys : indexKeys ku vidLen partId edge r (ipre ++ index :: ipost) = others).
  { unfold others, indexKeys. rewrite !flat_map_app. cbn [flat_map]. rewrite Hval.
    now destruct (edge_type edge =? schema_edge_type index). }
  assert (Hkeys' : indexKeys ku vidLen partId edge r (ipre ++ ipost) = others).
  { unfold others, indexKeys. now rewrite flat_map_app. }
  assert (Hloop : forall idxs q0 b0,
    indexKeys ku vidLen partId edge r idxs = others ->
    indexLoopObs ku env_ spaceId vidLen observed partId (edge_type edge) (src edge)
                 (ranking edge) (dst edge) v None idxs q0 b0 =
    branchEntries ku env_ observed partId others q0 b0).
  { intros idxs q0 b0 Hidx. erewrite indexLoopObs_reader by exact Hr.
    now rewrite indexLoopObs_decoded, Hidx. }
  assert (Hedge : forall idxs,
    indexKeys ku vidLen partId edge r idxs = others ->
    deleteEdgeObs ku env_ spaceId vidLen idxs observed partId edge q b =
    ('(q', ops) <-! branchEntries ku env_ observed partId others q [] ;;
     inr (q', b ++ map removeOf (takeWhile (fun kv => isLock ku vidLen (fst kv)) iter) ++
                   ops ++ OP_BATCH_REMOVE k :: map removeOf rest))).
  { intros idxs Hidx.
    rewrite (deleteEdgeObs_unfold _ _ _ _ ku env_ spaceId vidLen observed idxs partId edge
               q b SUCCEEDED iter Hscan).
    cbn [ErrorCode_eqb]. destruct (ErrorCode_eq_dec SUCCEEDED SUCCEEDED); [|congruence].
    rewrite Hdrop, Hk, (Hloop idxs q [] Hidx). unfold orderedEdgeOps. now rewrite Hdrop, Hk. }
  split; [now apply Hloop|]. split; [now apply Hedge|].
  now rewrite (Hedge _ Hkeys), (Hedge _ Hkeys').
Qed.


(** X8.  On the index-aware path a failure to build the batch of a
    partition is scoped to that partition and does not depend on the edge
    locks: in every configuration the request reaches, no submission of
    the partition is in flight, the only code it is ever given is the
    builder's error, and it has been given once nothing is left to
    dispatch. *)
Theorem X8_build_failure_is_partition_scoped :
  forall req held vidLen index indexes partId edges e c,
    getSpaceVidLen env_ (space_id req) = Some vidLen ->
    getEdgeIndexes env_ (space_id req) = Some (index :: indexes) ->
    NoDup (map fst (parts req)) ->
    In (partId, edges) (parts req) ->
    deleteEdges ku env_ (space_id req) vidLen (index :: indexes) partId edges = inl e ->
    reachable ku env_ req held c ->
    (forall cb, In cb (inflight_ (snd c)) -> cb_part cb <> partId) /\
    (forall code, In (partId, code) (codes_ (snd c)) -> code = e) /\
    (fst c = [] -> In (partId, e) (codes_ (snd c))).
Proof.
  intros req held vidLen index indexes partId edges e c Hv Hi Hnd Hpart Hbuild Hreach.
  assert (Hne : parts req <> []) by (intros E; rewrite E in Hpart; destruct Hpart).
  destruct (reachable_invariant _ _ _ _ ku env_ req held c Hne Hreach) as [Hacc _].
  unfold reachable in Hreach. rewrite Hv, Hi in Hreach.
  assert (Hrep :
    (forall cb, In cb (inflight_ (snd c)) -> cb_part cb <> partId) /\
    (forall code, In (partId, code) (codes_ (snd c)) -> code = e)).
  { eapply (reporting_partition _ _ _ _ ku env_ (space_id req) vidLen (index :: indexes)
              (parts req) _ partId edges e Hnd Hpart); [| | |exact Hreach].
    - intros cb [].
    - intros code [].
    - intros st. unfold dispatchPart, indexPart. cbn [fst snd]. now rewrite Hbuild. }
  destruct Hrep as [Hfl Hcodes].
  split; [exact Hfl|]. split; [exact Hcodes|].
  intros Htodo. unfold accounted in Hacc. rewrite Htodo in Hacc. cbn [map app] in Hacc.
  assert (Hp : In partId (map fst (parts req))) by (apply (in_map fst) in Hpart; exact Hpart).
  apply (Permutation_in _ Hacc) in Hp. apply in_app_or in Hp. destruct Hp as [Hp|Hp].
  - apply in_map_iff in Hp. destruct Hp as [cb [Hcb Hincb]]. now apply Hfl in Hincb.
  - apply in_map_iff in Hp. destruct Hp as [[p code] [Hp Hinp]]. cbn [fst] in Hp. subst p.
    now rewrite <- (Hcodes _ Hinp).
Qed.

End ObservedClaims.

(** ** Sample runs with the index state as it is read *)

Section ObservedScenarios.

Local Open Scope string_scope.

Lemma C2_branch_decided_by_state_read_at_entry_witness :
  getEdgePropReader Sample.envNormal 1 (edge_type Sample.edgeAB) "row1" = Some "row1" /\
  indexLoopObs Sample.keyUtils Sample.envNormal 1 Sample.vid8 Sample.observedRebuildEnds 1
               (edge_type Sample.edgeAB) (src Sample.edgeAB) (ranking Sample.edgeAB)
               (dst Sample.edgeAB) "row1" None Sample.indexesTwo 0%nat [] =
  inr (2%nat, [OP_BATCH_PUT "o/1/delete" Sample.indexKeyAB;
               OP_BATCH_REMOVE Sample.indexKeyAgeAB]).
Proof.
  split; [reflexivity|].
  exact (C2_branch_decided_by_state_read_at_entry _ _ _ _ Sample.keyUtils Sample.envNormal
           1 Sample.vid8 Sample.observedRebuildEnds 1 Sample.edgeAB "row1" "row1"
           Sample.indexesTwo 0%nat [] eq_refl).
Defined.

(** C2 as stated does not hold: the classification of an index is not a
    function of the (space, partition, index) triple.  With the same
    collaborators and the same sequence of states read, index 11 is
    treated as rebuilding (deferred deletion) and index 14 as normal
    (direct removal) when 11 comes first in the index set, and the other
    way round when 14 comes first: what decides is the state read when an
    entry is reached, not the index. *)
Lemma C2_classification_ignores_index_identity :
  indexLoopObs Sample.keyUtils Sample.envNormal 1 Sample.vid8 Sample.observedRebuildEnds 1
               (edge_type Sample.edgeAB) (src Sample.edgeAB) (ranking Sample.edgeAB)
               (dst Sample.edgeAB) "row1" None [Sample.idxName; Sample.idxAge] 0%nat [] =
  inr (2%nat, [OP_BATCH_PUT "o/1/delete" Sample.indexKeyAB;
               OP_BATCH_REMOVE Sample.indexKeyAgeAB]) /\
  indexLoopObs Sample.keyUtils Sample.envNormal 1 Sample.vid8 Sample.observedRebuildEnds 1
               (edge_type Sample.edgeAB) (src Sample.edgeAB) (ranking Sample.edgeAB)
               (dst Sample.edgeAB) "row1" None [Sample.idxAge; Sample.idxName] 0%nat [] =
  inr (2%nat, [OP_BATCH_PUT "o/1/delete" Sample.indexKeyAgeAB;
               OP_BATCH_REMOVE Sample.indexKeyAB]).
Proof. split; reflexivity. Qed.

Lemma C3_edge_operations_in_order_witness :
  deleteEdgesObs Sample.keyUtils Sample.envTwo 1 Sample.vid8 Sample.indexesTwo
                 Sample.observedRebuildEnds 1
                 [Sample.edgeCD; Sample.edgeAB; Sample.edgeCD] =
  inr "P[o/1/delete=i/1/11/name=row2/CCCCCCCC/0/DDDDDDDD]R[i/1/14/age=row2/CCCCCCCC/0/DDDDDDDD]R[e/1/CCCCCCCC/1/0/DDDDDDDD/v]R[e/1/AAAAAAAA/1/0/BBBBBBBB/l]R[i/1/11/name=row1/AAAAAAAA/0/BBBBBBBB]R[i/1/14/age=row1/AAAAAAAA/0/BBBBBBBB]R[e/1/AAAAAAAA/1/0/BBBBBBBB/v]R[e/1/AAAAAAAA/1/0/BBBBBBBB/x]R[i/1/11/name=row2/CCCCCCCC/0/DDDDDDDD]R[i/1/14/age=row2/CCCCCCCC/0/DDDDDDDD]R[e/1/CCCCCCCC/1/0/DDDDDDDD/v]" /\
  exists q1 before q2 indexOps q3 after,
    deleteEdgesLoopObs Sample.keyUtils Sample.envTwo 1 Sample.vid8 Sample.indexesTwo
                       Sample.observedRebuildEnds 1 [Sample.edgeCD] 0%nat [] = inr (q1, before) /\
    branchEntries Sample.keyUtils Sample.envTwo Sample.observedRebuildEnds 1
      (recordIndexKeys Sample.keyUtils Sample.envTwo 1 Sample.vid8 Sample.indexesTwo 1
                       Sample.edgeAB Sample.storeAB) q1 [] = inr (q2, indexOps) /\
    deleteEdgesLoopObs Sample.keyUtils Sample.envTwo 1 Sample.vid8 Sample.indexesTwo
                       Sample.observedRebuildEnds 1 [Sample.edgeCD] q2 [] = inr (q3, after) /\
    "P[o/1/delete=i/1/11/name=row2/CCCCCCCC/0/DDDDDDDD]R[i/1/14/age=row2/CCCCCCCC/0/DDDDDDDD]R[e/1/CCCCCCCC/1/0/DDDDDDDD/v]R[e/1/AAAAAAAA/1/0/BBBBBBBB/l]R[i/1/11/name=row1/AAAAAAAA/0/BBBBBBBB]R[i/1/14/age=row1/AAAAAAAA/0/BBBBBBBB]R[e/1/AAAAAAAA/1/0/BBBBBBBB/v]R[e/1/AAAAAAAA/1/0/BBBBBBBB/x]R[i/1/11/name=row2/CCCCCCCC/0/DDDDDDDD]R[i/1/14/age=row2/CCCCCCCC/0/DDDDDDDD]R[e/1/CCCCCCCC/1/0/DDDDDDDD/v]" =
    encodeBatchValue Sample.keyUtils
      (before ++
       orderedEdgeOps (isLock Sample.keyUtils Sample.vid8) (isEdge Sample.keyUtils Sample.vid8)
                      Sample.storeAB indexOps ++ after)%list.
Proof.
  split; [reflexivity|].
  exact (C3_edge_operations_in_order _ _ _ _ Sample.keyUtils Sample.envTwo
           1 Sample.vid8 Sample.indexesTwo Sample.observedRebuildEnds 1
           [Sample.edgeCD] Sample.edgeAB [Sample.edgeCD] _ eq_refl).
Defined.

Lemma C6_extraction_failure_skips_only_that_index_witness :
  collectIndexValues Sample.keyUtils "row1" (fields Sample.idxMissing) = None /\
  deleteEdgeObs Sample.keyUtils Sample.envNormal 1 Sample.vid8
                ([Sample.idxName] ++ Sample.idxMissing :: [Sample.idxAge; Sample.idxOther])%list
                Sample.observedNormal 1 Sample.edgeAB 0%nat [] =
  inr (2%nat,
       [OP_BATCH_REMOVE (Sample.lockKey Sample.vid8 1 "AAAAAAAA" 1 0 "BBBBBBBB");
        OP_BATCH_REMOVE Sample.indexKeyAB;
        OP_BATCH_REMOVE Sample.indexKeyAgeAB;
        OP_BATCH_REMOVE Sample.recordAB;
        OP_BATCH_REMOVE (fst Sample.staleAB)]).
Proof.
  split; [reflexivity|].
  exact (proj1 (proj2 (C6_extraction_failure_skips_only_that_index _ _ _ _ Sample.keyUtils
                         Sample.envNormal 1 Sample.vid8 Sample.observedNormal
                         [Sample.idxName] Sample.idxMissing [Sample.idxAge; Sample.idxOther]
                         1 Sample.edgeAB 0%nat [] Sample.storeAB Sample.recordAB "row1"
                         [Sample.staleAB] "row1" eq_refl eq_refl eq_refl eq_refl eq_refl))).
Defined.


Lemma X8_build_failure_is_partition_scoped_witness :
  deleteEdges Sample.keyUtils Sample.envScanError 1 Sample.vid8 Sample.indexes3 1
              [Sample.edgeAB] = inl (E_STORE 7) /\
  In (1, E_STORE 7)
     (codes_ (process Sample.keyUtils Sample.envScanError Sample.reqTwo (newProcessor []))) /\
  (forall cb,
      In cb (inflight_ (process Sample.keyUtils Sample.envScanError Sample.reqTwo
                                (newProcessor []))) ->
      cb_part cb <> 1).
Proof.
  assert (Hnd : NoDup (map fst (parts Sample.reqTwo))).
  { repeat constructor; cbn; intuition discriminate. }
  destruct (X8_build_failure_is_partition_scoped _ _ _ _ Sample.keyUtils Sample.envScanError
              Sample.reqTwo [] 8 Sample.idxName [Sample.idxMissing; Sample.idxOther]
              1 [Sample.edgeAB] (E_STORE 7) _
              eq_refl eq_refl Hnd (or_introl eq_refl) eq_refl
              (process_reachable _ _ _ _ Sample.keyUtils Sample.envScanError Sample.reqTwo []))
    as (Hfl & _ & Hcode).
  split; [reflexivity|]. split; [exact (Hcode eq_refl)|exact Hfl].
Defined.

End ObservedScenarios.
